(** * Container identity enrichment cache: a shallow embedding

    This development embeds, function by function, the reconciliation code of
    [containermetadata/k8swatcher.go] (bootstrap fetch, Redis event loop,
    the [K8sWatcher] entry point) and the two file-ID mappers of
    [processmanager/helpers.go], and proves the properties the design
    document states about them.  It goes on to the rest of
    [processmanager/helpers.go] (the hash of a file ID, the symbol upload
    of the executable reporter, the container id read from a cgroup file)
    and to what the code itself shows about all of these.

    Conventions.
    - Go strings are [string]; Go slices that are only read or freshly
      built are [list]s; [*sync.Map] keyed by container id is a
      [gmap string K8sPod].
    - A Go [error] is an opaque message; [(T, error)] results whose
      value is dropped on failure are sums [T + error], and a returned
      [error] alone is [option error] ([None] is [nil]).
    - Everything a function does besides updating the cache (printing,
      logging, HTTP requests, Redis receives) is appended to a trace, so
      that "how many requests were issued" is a statement about a list.
    - Library code that is not part of the repository (the HTTP client, the
      JSON decoder, the Redis subscription) and the package function
      [matchContainerID], whose body lives in another file of the
      package, are section variables. *)

From Stdlib Require Import Ascii DecimalString.
From stdpp Require Import gmap strings list fin_maps.

(** Go's [error] interface, reduced to the message it carries. *)
Definition error : Type := string.

(** ** Data model ([k8swatcher.go], lines 16-101) *)

Record RedisConfig := mkRedisConfig {
  Redis_Host : string;
  Redis_Port : Z;
  Redis_Channel : string
}.

Record K8sWatcherConfig := mkK8sWatcherConfig {
  URL : string;
  Timeout : Z;          (* time.Duration, nanoseconds *)
  RetryAttempts : Z
}.

Record K8sEnricherConfig := mkK8sEnricherConfig {
  Redis : RedisConfig;
  K8sWatcher_cfg : K8sWatcherConfig
}.

Record K8sOwner := mkK8sOwner {
  Owner_Name : string;
  Owner_Kind : string
}.

Record K8sContainer := mkK8sContainer {
  Container_Id : string;
  Container_Name : string
}.

Record K8sPod := mkK8sPod {
  Name : string;
  Namespace : string;
  NodeName : string;
  Containers : list K8sContainer;
  Ips : list string;
  Owner : K8sOwner
}.

Record K8sEntity := mkK8sEntity { Pod : K8sPod }.

Record K8sStateResponse := mkK8sStateResponse { Entities : list K8sEntity }.

(** [Modified] and [Deleted] are pointers in the source: [None] is [nil]. *)
Record K8sRedisEvent := mkK8sRedisEvent {
  Modified : option K8sEntity;
  Deleted : option K8sEntity;
  Refresh : bool
}.

(** The fields of the package-level [Config] that [K8sWatcher] reads. *)
Record Config := mkConfig {
  RedisHost : string;
  RedisPort : Z;
  K8SWatcherHost : string
}.

(** The enricher; its two clients are the section variables below and the
    map its [cache] field points to is the [cache] field of [State]. *)
Record K8sEnricher := mkK8sEnricher { config : K8sEnricherConfig }.

(** ** Effects *)

(** Arguments handed to a formatting call; the formatting itself is the
    standard library's business. *)
Inductive arg :=
| AStr (s : string)
| APod (p : K8sPod)
| AErr (e : error).

Inductive effect :=
| Printf (format : string) (args : list arg)
| Debugf (format : string) (args : list arg)
| Fatalf (format : string) (args : list arg)
| HttpGet (url : string)
| BodyClose
| Subscribe (channel : string)
| ReceiveMessage
| PubSubClose
| GoSubscribeToRedis (node : string).

Record State := mkState {
  cache : gmap string K8sPod;
  trace : list effect
}.

Definition emit (ev : effect) (st : State) : State :=
  mkState (cache st) (trace st ++ [ev]).

(** [e.cache.Store(id, &pod)] and [e.cache.Delete(id)]. *)
Definition Store (id : string) (pod : K8sPod) (st : State) : State :=
  mkState (<[id := pod]> (cache st)) (trace st).

Definition Delete (id : string) (st : State) : State :=
  mkState (delete id (cache st)) (trace st).

(** [cache.Load(key)]: the exposed lookup. *)
Definition Get (st : State) (key : string) : option K8sPod := cache st !! key.

(** How a call ends.  [log.Fatalf] logs and calls [os.Exit(1)]; an
    unrecovered [panic] unwinds the goroutine and takes the process down;
    [Blocked] is a receive loop waiting for a message that has not come. *)
Inductive outcome (A : Type) :=
| Returned (a : A)
| Exited (code : Z)
| Panicked (e : error)
| Blocked.
Arguments Returned {A} a.
Arguments Exited {A} code.
Arguments Panicked {A} e.
Arguments Blocked {A}.

Definition is_http_get (ev : effect) : bool :=
  match ev with HttpGet _ => true | _ => false end.

(** Number of cluster-state requests a trace contains. *)
Definition fetches (t : list effect) : nat := length (filter is_http_get t).

(** ** File-ID mappers ([processmanager/helpers.go], lines 28-92) *)

Module processmanager.

(** [host.FileID] is a [uint64]. *)
Definition FileID : Type := Z.

Inductive logline :=
| Warnf (format : string) (key : FileID).

Section Mappers.

(** [libpf.FrameMappingFile] and its zero value
    [libpf.FrameMappingFile{}]; the type is declared in [libpf]. *)
Variable FrameMappingFile : Type.
Variable zeroFrameMappingFile : FrameMappingFile.

(** [lru.SyncedLRU[host.FileID, libpf.FrameMappingFile]] of go-freelru
    and its [Get], which may reorder the cache. *)
Variable SyncedLRU : Type.
Variable lru_Get : SyncedLRU -> FileID -> SyncedLRU * (FrameMappingFile * bool).

Record lruFileIDMapper := mkLruFileIDMapper { lru_cache : SyncedLRU }.

(** Lines 46-53; the result, the mapper afterwards, what was logged. *)
Definition lruFileIDMapper_Get (fm : lruFileIDMapper) (key : FileID)
  : (FrameMappingFile * bool) * lruFileIDMapper * list logline :=
  let '(c, (mappingFile, ok)) := lru_Get (lru_cache fm) key in
  if ok
  then ((mappingFile, true), mkLruFileIDMapper c, [])
  else ((zeroFrameMappingFile, false), mkLruFileIDMapper c,
        [Warnf "Failed to lookup file ID %#x" key]).

Record MapFileIDMapper := mkMapFileIDMapper {
  fileMap : gmap FileID FrameMappingFile
}.

Definition NewMapFileIDMapper : MapFileIDMapper := mkMapFileIDMapper ∅.

(** Lines 73-78. *)
Definition MapFileIDMapper_Get (fm : MapFileIDMapper) (key : FileID)
  : FrameMappingFile * bool :=
  match fileMap fm !! key with
  | Some value => (value, true)
  | None => (zeroFrameMappingFile, true)
  end.

(** Lines 80-82. *)
Definition MapFileIDMapper_Set (fm : MapFileIDMapper) (key : FileID)
           (value : FrameMappingFile) : MapFileIDMapper :=
  mkMapFileIDMapper (<[key := value]> (fileMap fm)).

End Mappers.

(** Lines 32-36: [uint32(key)] keeps the low 32 bits of the file ID. *)
Definition identityHash (key : FileID) : Z := key mod 2 ^ 32.

Section NewMapper.

Variable SyncedLRU : Type.

(** [lru.NewSynced(capacity, hash)] of go-freelru. *)
Variable lru_NewSynced : Z -> (FileID -> Z) -> SyncedLRU + error.

(** Lines 38-44; [size] is an [int], [uint32(size)] wraps it modulo 2^32. *)
Definition newFileIDMapper (size : Z) : lruFileIDMapper SyncedLRU + error :=
  match lru_NewSynced (size mod 2 ^ 32) identityHash with
  | inr err => inr err
  | inl cache => inl (mkLruFileIDMapper SyncedLRU cache)
  end.

End NewMapper.

(** *** Symbol upload (lines 94-123 and 165-193) *)

Section Reporter.

(** [libpf.String] with its [NullString] and its [String()] method, and
    [libpf.FileID]; both types are declared in [libpf]. *)
Variable LString : Type.
Context `{EqDecision LString}.
Variable NullString : LString.
Variable LString_String : LString -> string.
Variable LFileID : Type.

(** [os.Getenv] and [exec.Command(argv...).CombinedOutput()]. *)
Variable os_Getenv : string -> string.
Variable CombinedOutput : list string -> string * option error.

Inductive logval :=
| VStr (s : string)
| VErr (e : error)
| VLString (s : LString)
| VFileID (f : LFileID).

Inductive action :=
| Infof (format : string) (args : list logval)
| Errorf (format : string) (args : list logval)
| Run (argv : list string)
| Extract (path : string).

(** The fields of [reporter.ExecutableMetadata] that the stub reads;
    [ExtractAsFile] is the method of its [Process]. *)
Record ExecutableMetadata := mkExecutableMetadata {
  MappingFile_GnuBuildID : string;
  MappingFile_FileID : LFileID;
  MappingFile_FileName : LString;
  Mapping_Path : LString;
  DebuglinkFileName : string;
  Process_ExtractAsFile : string -> string * option error
}.

(** Lines 166-193. *)
Definition uploadSymbols (mappingPath : string) : option error * list action :=
  let token := os_Getenv "token" in
  if decide (token = "")
  then (Some "token environment variable not set", [])
  else
    let symbolURL := os_Getenv "SYMBOL_URL" in
    if decide (symbolURL = "")
    then (Some "SYMBOL_URL environment variable not set", [])
    else
      let argv := ["symbol-upload-tool"; "upload";
                   "--coralogix-endpoint"; symbolURL;
                   "--auth"; token;
                   mappingPath] in
      match CombinedOutput argv with
      | (output, Some err) =>
          (Some ("symbol upload failed: " ++ err)%string,
           [Run argv;
            Errorf "Failed to upload symbols for %s: %v, output: %s"
                   [VStr mappingPath; VErr err; VStr output]])
      | (output, None) =>
          (None,
           [Run argv;
            Infof "Successfully uploaded symbols for %s: %s"
                  [VStr mappingPath; VStr output]])
      end.

(** Lines 100-123: the body of the goroutine [ReportExecutable] starts;
    the result is what that goroutine does, in order. *)
Definition ReportExecutable (args : ExecutableMetadata) : list action :=
  let report :=
    Infof "executableReporterStub.ReportExecutable called: (buildID: %s. fileId %s, name: %s) mapping path: %s, debuglink: %s"
          [VStr (MappingFile_GnuBuildID args); VFileID (MappingFile_FileID args);
           VLString (MappingFile_FileName args); VLString (Mapping_Path args);
           VStr (DebuglinkFileName args)] in
  if decide (Mapping_Path args = NullString)
  then [report]
  else
    let '(file, err) := Process_ExtractAsFile args (LString_String (Mapping_Path args)) in
    let extraction :=
      match err with
      | Some e => [Errorf "Failed to extract executable file %s: %v"
                          [VLString (Mapping_Path args); VErr e]]
      | None => []
      end in
    let '(uerr, uploaded) := uploadSymbols file in
    let failure :=
      match uerr with
      | Some e => [Errorf "Failed to upload symbols for mapping %s: %v"
                          [VStr file; VErr e]]
      | None => []
      end in
    report :: Extract (LString_String (Mapping_Path args))
           :: extraction ++ uploaded ++ failure.

End Reporter.

(** *** Container id of a cgroup file (lines 23-26 and 127-163) *)

(** The pattern
    [0:.*?:.*?([0-9a-fA-F]{64})(?:\.scope)?(?:/[a-z]+)?$]
    read as Go's [regexp] reads it: the match that starts leftmost and,
    from there, the first one a backtracking search meets; [.] is any byte
    but a newline, [$] the end of the text.  The functions below follow
    the pattern piece by piece over the bytes of the line and return what
    the parenthesised group captured. *)

Definition is_hex (c : ascii) : bool :=
  let n := nat_of_ascii c in
  ((48 <=? n) && (n <=? 57) || (97 <=? n) && (n <=? 102) || (65 <=? n) && (n <=? 70))%nat.

Definition is_lower (c : ascii) : bool :=
  let n := nat_of_ascii c in ((97 <=? n) && (n <=? 122))%nat.

Definition is_newline (c : ascii) : bool := (nat_of_ascii c =? 10)%nat.

(** [[0-9a-fA-F]{n}]: the [n] bytes captured and what follows them. *)
Fixpoint hex_run (n : nat) (s : list ascii) : option (list ascii * list ascii) :=
  match n with
  | O => Some ([], s)
  | S n' =>
      match s with
      | c :: s' =>
          if is_hex c
          then match hex_run n' s' with
               | Some (h, r) => Some (c :: h, r)
               | None => None
               end
          else None
      | [] => None
      end
  end.

(** [/[a-z]+$]. *)
Definition slash_letters (s : list ascii) : bool :=
  match s with
  | c :: r =>
      (nat_of_ascii c =? 47)%nat &&
      match r with [] => false | _ :: _ => forallb is_lower r end
  | [] => false
  end.

(** [(?:/[a-z]+)?$]: with the group, else without. *)
Definition opt_slash_end (s : list ascii) : bool :=
  slash_letters s || (match s with [] => true | _ => false end).

(** The literal [p] in front of [s]: what follows it. *)
Fixpoint strip_literal (p s : list ascii) : option (list ascii) :=
  match p with
  | [] => Some s
  | a :: p' =>
      match s with
      | c :: s' => if Ascii.eqb a c then strip_literal p' s' else None
      | [] => None
      end
  end.

(** [\.scope] in front of [s]. *)
Definition strip_scope (s : list ascii) : option (list ascii) :=
  strip_literal (String.list_ascii_of_string ".scope") s.

(** [(?:\.scope)?(?:/[a-z]+)?$]: with [.scope] first, else without. *)
Definition pattern_tail (s : list ascii) : bool :=
  match strip_scope s with
  | Some r => opt_slash_end r || opt_slash_end s
  | None => opt_slash_end s
  end.

(** [([0-9a-fA-F]{64})(?:\.scope)?(?:/[a-z]+)?$] at the front of [s]. *)
Definition capture_here (s : list ascii) : option (list ascii) :=
  match hex_run 64 s with
  | Some (h, r) => if pattern_tail r then Some h else None
  | None => None
  end.

(** [.*?([0-9a-fA-F]{64})...$]: the capture as early as it succeeds,
    else one more byte for the lazy [.*?]. *)
Fixpoint lazy_capture (s : list ascii) : option (list ascii) :=
  match capture_here s with
  | Some h => Some h
  | None =>
      match s with
      | c :: s' => if is_newline c then None else lazy_capture s'
      | [] => None
      end
  end.

(** [.*?:.*?(...)...$]: a colon as early as the rest succeeds after it,
    else one more byte for the lazy [.*?]. *)
Fixpoint lazy_colon (s : list ascii) : option (list ascii) :=
  match s with
  | c :: s' =>
      match (if (nat_of_ascii c =? 58)%nat then lazy_capture s' else None) with
      | Some h => Some h
      | None => if is_newline c then None else lazy_colon s'
      end
  | [] => None
  end.

(** The pattern at the front of [s]. *)
Definition pattern_here (s : list ascii) : option (list ascii) :=
  match s with
  | c0 :: c1 :: r =>
      if ((nat_of_ascii c0 =? 48) && (nat_of_ascii c1 =? 58))%nat
      then lazy_colon r else None
  | _ => None
  end.

(** The unanchored search: the leftmost start that succeeds. *)
Fixpoint pattern_search (s : list ascii) : option (list ascii) :=
  match pattern_here s with
  | Some h => Some h
  | None =>
      match s with
      | _ :: s' => pattern_search s'
      | [] => None
      end
  end.

(** [cgroupv2ContainerIDPattern.FindStringSubmatch(line)], reduced to what
    the caller reads of it: [None] for [nil], else element 1. *)
Definition cgroupv2ContainerIDPattern_submatch (line : string) : option string :=
  option_map String.string_of_list_ascii
             (pattern_search (String.list_ascii_of_string line)).

Inductive debugline :=
| Debugf (format : string) (line : string).

(** Lines 128-153, over the lines the [bufio.Scanner] delivers, in order,
    until it stops; the result and the debug lines written. *)
Fixpoint parseContainerID (lines : list string) : string * list debugline :=
  match lines with
  | [] => (""%string, [])
  | b :: rest =>
      if decide (b = "0::/")
      then parseContainerID rest
      else
        match cgroupv2ContainerIDPattern_submatch b with
        | None =>
            let '(id, logged) := parseContainerID rest in
            (id, Debugf "Could not extract cgroupv2 path from line: %s" b :: logged)
        | Some id => (id, [])
        end
  end.

Section Extract.

(** [os.Open(path)], reduced to the lines a scanner delivers from the
    opened file. *)
Variable os_Open : string -> list string + error.

(** [fmt.Sprintf("/proc/%d/cgroup", pid)]; [libpf.PID] is a [uint32]. *)
Definition cgroupPath (pid : N) : string :=
  ("/proc/" ++ NilZero.string_of_uint (N.to_uint pid) ++ "/cgroup")%string.

(** Lines 156-163. *)
Definition extractContainerID (pid : N) : string * option error :=
  match os_Open (cgroupPath pid) with
  | inr err => (""%string, Some err)
  | inl lines => ((parseContainerID lines).1, None)
  end.

End Extract.

End processmanager.

(** ** Concrete collaborators used to run the model *)

Module Sample.

(** A matcher of the shape the package uses: the identifier is what
    follows the runtime prefix; no prefix, no match. *)
Definition matcher (raw : string) : string * option error :=
  if String.prefix "containerd://" raw
  then (String.substring 13 (String.length raw - 13) raw, None)
  else ("", Some ("could not get string submatch for container id " ++ raw)%string).

Definition app : K8sContainer := mkK8sContainer "containerd://abcdef0123456789" "app".
Definition sidecar : K8sContainer := mkK8sContainer "containerd://0123456789abcdef" "sidecar".
Definition pause : K8sContainer := mkK8sContainer "sandbox" "pause".

Definition web1 : K8sPod :=
  mkK8sPod "web-1" "default" "node-A" [app; sidecar; pause] ["10.0.0.5"]
           (mkK8sOwner "web" "ReplicaSet").

Definition db1 : K8sPod :=
  mkK8sPod "db-1" "default" "node-B"
           [mkK8sContainer "containerd://ffffffffffffffff" "postgres"]
           ["10.0.1.7"] (mkK8sOwner "db" "StatefulSet").

(** A cluster-state source that answers one base URL and fails for every
    other, a state decoder and an event decoder that know a handful of
    bodies. *)
Definition httpGet (url : string) : string + error :=
  if decide (url = "http://watcher/api/v1/k8s/pods?node=node-A")
  then inl "state-1"
  else if decide (url = "http://garbled/api/v1/k8s/pods?node=node-A")
  then inl "<html>"
  else inr "dial tcp: connection refused".

Definition decodeState (body : string) : K8sStateResponse + error :=
  if decide (body = "state-1")
  then inl (mkK8sStateResponse [mkK8sEntity web1; mkK8sEntity db1])
  else inr "invalid character '<' looking for beginning of value".

Definition decodeEvent (payload : string) : K8sRedisEvent + error :=
  if decide (payload = "modified web-1")
  then inl (mkK8sRedisEvent (Some (mkK8sEntity web1)) None false)
  else if decide (payload = "deleted web-1")
  then inl (mkK8sRedisEvent None (Some (mkK8sEntity web1)) false)
  else if decide (payload = "modified db-1")
  then inl (mkK8sRedisEvent (Some (mkK8sEntity db1)) None false)
  else if decide (payload = "refresh")
  then inl (mkK8sRedisEvent None None true)
  else inr "unexpected end of JSON input".

Definition cfg : Config := mkConfig "redis" 6379 "http://watcher".
Definition cfgDown : Config := mkConfig "redis" 6379 "http://nowhere".

(** A toy LRU: an association list, looked up front to back. *)
Definition lruGet (c : list (Z * Z)) (key : Z) : list (Z * Z) * (Z * bool) :=
  match List.find (fun kv => Z.eqb kv.1 key) c with
  | Some kv => (c, (kv.2, true))
  | None => (c, (0%Z, false))
  end.

(** An environment with both variables of the symbol upload set, one
    without the endpoint, and an upload tool that fails. *)
Definition env (name : string) : string :=
  if decide (name = "token") then "s3cr3t"
  else if decide (name = "SYMBOL_URL") then "https://symbols.example"
  else "".

Definition envNoURL (name : string) : string :=
  if decide (name = "token") then "s3cr3t" else "".

Definition toolFails (argv : list string) : string * option error :=
  ("connection reset", Some "exit status 1").

(** An executable whose file cannot be extracted. *)
Definition unreadable : processmanager.ExecutableMetadata string Z :=
  processmanager.mkExecutableMetadata string Z
    "4fe2" 77%Z "libc.so.6" "/usr/lib/libc.so.6" ""
    (fun _ => ("", Some "no such file or directory")).

(** A constructor of LRU caches that refuses capacity 0, as go-freelru does. *)
Definition lruNew (capacity : Z) (hash : Z -> Z) : list (Z * Z) + error :=
  if decide (capacity = 0%Z) then inr "capacity must be positive" else inl [].

(** A second pod of the local node, with a container of its own. *)
Definition api1 : K8sPod :=
  mkK8sPod "api-1" "default" "node-A"
           [mkK8sContainer "containerd://1111222233334444" "api"]
           ["10.0.0.9"] (mkK8sOwner "api" "Deployment").

(** A container id as the runtime writes it and a cgroup line of the
    systemd driver that carries it. *)
Definition containerID : string :=
  "ed89697807a981b82f6245ac3a13be232c1e13435d52bc3f53060d61babe1997".

Definition cgroupLine : string :=
  ("0::/kubepods.slice/kubepods-besteffort.slice/cri-containerd-"
   ++ containerID ++ ".scope")%string.





End Sample.

Section Reconciliation.

(** [matchContainerID(raw)] of the package: the canonical identifier and
    an error, [nil] on a match. *)
Variable matchContainerID : string -> string * option error.

(** [e.k8sClient.Get(url)] followed by reading the body. *)
Variable k8sClient_Get : string -> string + error.

(** [json.NewDecoder(body).Decode(&state)]. *)
Variable json_Decode : string -> K8sStateResponse + error.

(** [json.Unmarshal(payload, &event)]. *)
Variable json_Unmarshal : string -> K8sRedisEvent + error.

(** Lines 147-152 (and 202-207): scan the pod's containers, keep the
    first one whose identifier maps to [id] (the error of the matcher is
    discarded here), then [break]. *)
Fixpoint matchingContainer (id : string) (cs : list K8sContainer)
  : list K8sContainer :=
  match cs with
  | [] => []
  | c :: rest =>
      if decide ((matchContainerID (Container_Id c)).1 = id)
      then [] ++ [c]
      else matchingContainer id rest
  end.

(** Lines 143-152: copy the pod, reset its containers, add the match. *)
Definition filteredPod (pod : K8sPod) (id : string) : K8sPod :=
  mkK8sPod (Name pod) (Namespace pod) (NodeName pod)
           (matchingContainer id (Containers pod)) (Ips pod) (Owner pod).

(** Body of the loop at lines 139-155. *)
Definition storeContainer (pod : K8sPod) (st : State) (container : K8sContainer)
  : State :=
  match matchContainerID (Container_Id container) with
  | (id, None) => Store id (filteredPod pod id) st
  | (_, Some _) => st
  end.

(** Body of the loop at lines 136-157. *)
Definition bootstrapEntity (myNode : string) (st : State) (entity : K8sEntity)
  : State :=
  if decide (NodeName (Pod entity) = myNode)
  then foldl (storeContainer (Pod entity)) st (Containers (Pod entity))
  else st.

(** Lines 159-165: [cache.Range] logging every entry. *)
Definition printCache (st : State) : State :=
  foldl (fun s kv => emit (Debugf "key: %s value: %s" [AStr kv.1; APod kv.2]) s)
        st (map_to_list (cache st)).

Definition podsURL (e : K8sEnricher) (myNode : string) : string :=
  (URL (K8sWatcher_cfg (config e)) ++ "/api/v1/k8s/pods?node=" ++ myNode)%string.

Definition FetchK8sState (e : K8sEnricher) (myNode : string) (st : State)
  : option error * State :=
  let st := emit (Printf "fetching k8s state from %s/api/v1/k8s/pods?node=%s\n"
                         [AStr (URL (K8sWatcher_cfg (config e))); AStr myNode]) st in
  let st := emit (HttpGet (podsURL e myNode)) st in
  match k8sClient_Get (podsURL e myNode) with
  | inr err => (Some err, st)
  | inl body =>
      match json_Decode body with
      | inr err => (Some err, emit BodyClose st)
      | inl state =>
          let st := foldl (bootstrapEntity myNode) st (Entities state) in
          let st := printCache st in
          (None, emit BodyClose st)
      end
  end.

(** Body of the loop at lines 194-212. *)
Definition modifiedContainer (pod : K8sPod) (st : State) (container : K8sContainer)
  : State :=
  emit (Debugf "modified event  %s" [APod pod]) (storeContainer pod st container).

(** Body of the loop at lines 216-223. *)
Definition deletedContainer (pod : K8sPod) (st : State) (container : K8sContainer)
  : State :=
  let st := match matchContainerID (Container_Id container) with
            | (id, None) => Delete id st
            | (_, Some _) => st
            end in
  emit (Debugf "delete event %s" [APod pod]) st.

(** Lines 192-226: what one decoded event does. *)
Definition applyEvent (myNode : string) (event : K8sRedisEvent) (st : State)
  : State :=
  match Modified event with
  | Some m =>
      if decide (NodeName (Pod m) = myNode)
      then foldl (modifiedContainer (Pod m)) st (Containers (Pod m))
      else st
  | None =>
      match Deleted event with
      | Some d =>
          if decide (NodeName (Pod d) = myNode)
          then foldl (deletedContainer (Pod d)) st (Containers (Pod d))
          else st
      | None => st
      end
  end.

(** Lines 186-226: one received payload. *)
Definition handlePayload (myNode : string) (payload : string) (st : State)
  : State :=
  match json_Unmarshal payload with
  | inr err => emit (Debugf "Failed to parse event: %v" [AErr err]) st
  | inl event => applyEvent myNode event st
  end.

(** Lines 180-227: the [for] loop, driven by what the successive calls of
    [pubsub.ReceiveMessage] return.  When the list is used up the loop is
    blocked in the next receive. *)
Fixpoint receiveLoop (myNode : string) (recvs : list (string + error))
         (st : State) : outcome (option error) * State :=
  match recvs with
  | [] => (Blocked, emit ReceiveMessage st)
  | inr err :: _ => (Panicked err, emit ReceiveMessage st)
  | inl payload :: rest =>
      receiveLoop myNode rest (handlePayload myNode payload (emit ReceiveMessage st))
  end.

(** [pubsub] is what [redisClient.Subscribe] returns: [None] for [nil],
    otherwise the results its receives will deliver.  The deferred
    [pubsub.Close] runs when the function is left by a panic. *)
Definition SubscribeToRedis (e : K8sEnricher) (pubsub : option (list (string + error)))
           (myNode : string) (st : State) : outcome (option error) * State :=
  let st := emit (Subscribe (Redis_Channel (Redis (config e)))) st in
  match pubsub with
  | None =>
      (Exited 1, emit (Fatalf "Failed to subscribe to channel %s"
                              [AStr (Redis_Channel (Redis (config e)))]) st)
  | Some recvs =>
      match receiveLoop myNode recvs st with
      | (Panicked err, st') => (Panicked err, emit PubSubClose st')
      | (Returned r, st') => (Returned r, emit PubSubClose st')
      | other => other
      end
  end.

Definition NewK8sEnricher (config : K8sEnricherConfig) : K8sEnricher * State :=
  (mkK8sEnricher config, mkState ∅ []).

(** Lines 234-245. *)
Definition watcherConfig (cfg : Config) : K8sEnricherConfig :=
  mkK8sEnricherConfig
    (mkRedisConfig (RedisHost cfg) (RedisPort cfg) "k8s-events")
    (mkK8sWatcherConfig (K8SWatcherHost cfg) (10 * 1000000000) 3).

(** [K8sWatcher] up to its [return]: the value returned is the cache
    pointer, i.e. the map held in the resulting state. *)
Definition K8sWatcher (nodeName : string) (cfg : Config)
  : outcome (gmap string K8sPod) * State :=
  let '(enricher, st) := NewK8sEnricher (watcherConfig cfg) in
  match FetchK8sState enricher nodeName st with
  | (Some err, st) =>
      (Exited 1, emit (Fatalf "Failed to fetch k8s state: %v" [AErr err]) st)
  | (None, st) =>
      let st := emit (GoSubscribeToRedis nodeName) st in
      (Returned (cache st), st)
  end.

(** The goroutine started at lines 255-260, run on the state the
    bootstrap left. *)
Definition subscriber (nodeName : string) (cfg : Config)
           (pubsub : option (list (string + error))) (st : State)
  : outcome unit * State :=
  match SubscribeToRedis (mkK8sEnricher (watcherConfig cfg)) pubsub nodeName st with
  | (Returned (Some err), st') =>
      (Exited 1, emit (Fatalf "Failed to subscribe to redis: %v" [AErr err]) st')
  | (Returned None, st') => (Returned tt, st')
  | (Exited c, st') => (Exited c, st')
  | (Panicked err, st') => (Panicked err, st')
  | (Blocked, st') => (Blocked, st')
  end.

(** Bootstrap followed by the goroutine: the life of the service. *)
Definition service (nodeName : string) (cfg : Config)
           (pubsub : option (list (string + error))) : outcome unit * State :=
  match K8sWatcher nodeName cfg with
  | (Returned _, st) => subscriber nodeName cfg pubsub st
  | (Exited c, st) => (Exited c, st)
  | (Panicked err, st) => (Panicked err, st)
  | (Blocked, st) => (Blocked, st)
  end.

(** ** Vocabulary of the statements *)

(** The canonical key of a container: the identifier the matcher returns
    for its id, when it returns no error. *)
Definition canonicalKey (c : K8sContainer) : option string :=
  match matchContainerID (Container_Id c) with
  | (id, None) => Some id
  | (_, Some _) => None
  end.

Definition canonicalKeys (cs : list K8sContainer) : list string :=
  omap canonicalKey cs.

(** What the two loop bodies do to the map alone. *)
Definition storeInto (pod : K8sPod) (m : gmap string K8sPod) (c : K8sContainer)
  : gmap string K8sPod :=
  match canonicalKey c with
  | Some id => <[id := filteredPod pod id]> m
  | None => m
  end.

Definition deleteFrom (m : gmap string K8sPod) (c : K8sContainer)
  : gmap string K8sPod :=
  match canonicalKey c with
  | Some id => delete id m
  | None => m
  end.

(** A key some raw identifier is matched to. *)
Definition canonical (key : string) : Prop :=
  ∃ raw, matchContainerID raw = (key, None).

(** The record holds one container, and the matcher maps its id to [key]. *)
Definition single_container (key : string) (pod : K8sPod) : Prop :=
  ∃ c, Containers pod = [c] ∧ (matchContainerID (Container_Id c)).1 = key.

Definition well_stored (myNode key : string) (pod : K8sPod) : Prop :=
  single_container key pod ∧ canonical key ∧ NodeName pod = myNode.

Definition index_inv (myNode : string) (m : gmap string K8sPod) : Prop :=
  map_Forall (well_stored myNode) m.


(** [e] with another retry count in its configuration. *)
Definition withRetryAttempts (n : Z) (e : K8sEnricher) : K8sEnricher :=
  let c := config e in
  let w := K8sWatcher_cfg c in
  mkK8sEnricher (mkK8sEnricherConfig (Redis c) (mkK8sWatcherConfig (URL w) (Timeout w) n)).

(** ** State projections *)

Lemma cache_emit ev st : cache (emit ev st) = cache st.
Proof. reflexivity. Qed.

Lemma trace_emit ev st : trace (emit ev st) = (trace st ++ [ev])%list.
Proof. reflexivity. Qed.

Lemma foldl_cache {A} (f : State → A → State)
      (g : gmap string K8sPod → A → gmap string K8sPod) :
  (∀ st a, cache (f st a) = g (cache st) a) →
  ∀ l st, cache (foldl f st l) = foldl g (cache st) l.
Proof.
  intros Hstep l. induction l as [|a l IH]; intros st; simpl.
  - reflexivity.
  - rewrite IH, Hstep. reflexivity.
Qed.

Lemma storeContainer_cache pod st c :
  cache (storeContainer pod st c) = storeInto pod (cache st) c.
Proof.
  unfold storeContainer, storeInto, canonicalKey.
  destruct (matchContainerID (Container_Id c)) as [id [err|]]; reflexivity.
Qed.

Lemma modifiedContainer_cache pod st c :
  cache (modifiedContainer pod st c) = storeInto pod (cache st) c.
Proof. unfold modifiedContainer. rewrite cache_emit. apply storeContainer_cache. Qed.

Lemma deletedContainer_cache pod st c :
  cache (deletedContainer pod st c) = deleteFrom (cache st) c.
Proof.
  unfold deletedContainer, deleteFrom, canonicalKey. rewrite cache_emit.
  destruct (matchContainerID (Container_Id c)) as [id [err|]]; reflexivity.
Qed.

Lemma printCache_cache st : cache (printCache st) = cache st.
Proof.
  unfold printCache. generalize (map_to_list (cache st)) as l.
  intros l. revert st. induction l as [|kv l IH]; intros st; simpl.
  - reflexivity.
  - rewrite IH. apply cache_emit.
Qed.

(** ** The map after a pass over a pod's containers *)

Lemma canonicalKeys_cons c cs :
  canonicalKeys (c :: cs) =
  match canonicalKey c with Some id => id :: canonicalKeys cs | None => canonicalKeys cs end.
Proof. reflexivity. Qed.

Lemma elem_of_canonicalKeys k cs :
  k ∈ canonicalKeys cs ↔ ∃ c, c ∈ cs ∧ matchContainerID (Container_Id c) = (k, None).
Proof.
  induction cs as [|c cs IH].
  - split; [intros H; inversion H | intros (c & H & _); inversion H].
  - rewrite canonicalKeys_cons. unfold canonicalKey at 1.
    destruct (matchContainerID (Container_Id c)) as [id [err|]] eqn:Hm.
    + rewrite IH. split.
      * intros (c' & Hin & Hc'). exists c'. split; [by right | done].
      * intros (c' & Hin & Hc'). apply elem_of_cons in Hin as [->|Hin].
        -- congruence.
        -- by exists c'.
    + rewrite elem_of_cons, IH. split.
      * intros [->|(c' & Hin & Hc')].
        -- exists c. split; [by left | done].
        -- exists c'. split; [by right | done].
      * intros (c' & Hin & Hc'). apply elem_of_cons in Hin as [->|Hin].
        -- left. congruence.
        -- right. by exists c'.
Qed.

Lemma lookup_storeInto pod cs : ∀ m k,
  foldl (storeInto pod) m cs !! k =
  if decide (k ∈ canonicalKeys cs) then Some (filteredPod pod k) else m !! k.
Proof.
  induction cs as [|c cs IH]; intros m k.
  - simpl. destruct (decide (k ∈ [])) as [H|H]; [inversion H | reflexivity].
  - simpl foldl. rewrite IH, canonicalKeys_cons. unfold storeInto at 1.
    destruct (canonicalKey c) as [id|]; [|reflexivity].
    rewrite lookup_insert.
    destruct (decide (id = k)) as [->|Hne].
    + rewrite (decide_True (P := k ∈ k :: canonicalKeys cs)) by (by left).
      by destruct (decide (k ∈ canonicalKeys cs)).
    + destruct (decide (k ∈ canonicalKeys cs)) as [Hin|Hin].
      * rewrite decide_True by (by right). reflexivity.
      * rewrite decide_False; [reflexivity|].
        intros [->|H]%elem_of_cons; contradiction.
Qed.

Lemma lookup_deleteFrom cs : ∀ m k,
  foldl deleteFrom m cs !! k =
  if decide (k ∈ canonicalKeys cs) then None else m !! k.
Proof.
  induction cs as [|c cs IH]; intros m k.
  - simpl. destruct (decide (k ∈ [])) as [H|H]; [inversion H | reflexivity].
  - simpl foldl. rewrite IH, canonicalKeys_cons. unfold deleteFrom at 1.
    destruct (canonicalKey c) as [id|]; [|reflexivity].
    rewrite lookup_delete.
    destruct (decide (id = k)) as [->|Hne].
    + rewrite (decide_True (P := k ∈ k :: canonicalKeys cs)) by (by left).
      by destruct (decide (k ∈ canonicalKeys cs)).
    + destruct (decide (k ∈ canonicalKeys cs)) as [Hin|Hin].
      * rewrite decide_True by (by right). reflexivity.
      * rewrite decide_False; [reflexivity|].
        intros [->|H]%elem_of_cons; contradiction.
Qed.

(** ** What one event does to the map *)

Lemma bootstrapEntity_cache myNode st entity :
  cache (bootstrapEntity myNode st entity) =
  if decide (NodeName (Pod entity) = myNode)
  then foldl (storeInto (Pod entity)) (cache st) (Containers (Pod entity))
  else cache st.
Proof.
  unfold bootstrapEntity. destruct (decide _); [|reflexivity].
  apply foldl_cache, storeContainer_cache.
Qed.

Lemma applyEvent_cache myNode event st :
  cache (applyEvent myNode event st) =
  match Modified event with
  | Some m =>
      if decide (NodeName (Pod m) = myNode)
      then foldl (storeInto (Pod m)) (cache st) (Containers (Pod m))
      else cache st
  | None =>
      match Deleted event with
      | Some d =>
          if decide (NodeName (Pod d) = myNode)
          then foldl deleteFrom (cache st) (Containers (Pod d))
          else cache st
      | None => cache st
      end
  end.
Proof.
  unfold applyEvent.
  destruct (Modified event) as [m|]; [|destruct (Deleted event) as [d|]];
    try destruct (decide _); try reflexivity.
  - apply foldl_cache, modifiedContainer_cache.
  - apply foldl_cache, deletedContainer_cache.
Qed.

Lemma handlePayload_cache_ext myNode payload st1 st2 :
  cache st1 = cache st2 →
  cache (handlePayload myNode payload st1) = cache (handlePayload myNode payload st2).
Proof.
  intros Heq. unfold handlePayload.
  destruct (json_Unmarshal payload) as [event|err].
  - rewrite !applyEvent_cache, Heq. reflexivity.
  - rewrite !cache_emit. exact Heq.
Qed.

(** The trace never feeds back into the map or into how the loop ends. *)
Lemma receiveLoop_cache_ext myNode recvs : ∀ st1 st2,
  cache st1 = cache st2 →
  (receiveLoop myNode recvs st1).1 = (receiveLoop myNode recvs st2).1 ∧
  cache (receiveLoop myNode recvs st1).2 = cache (receiveLoop myNode recvs st2).2.
Proof.
  induction recvs as [|[payload|err] rest IH]; intros st1 st2 Heq; simpl.
  - split; [reflexivity | exact Heq].
  - apply IH, handlePayload_cache_ext. exact Heq.
  - split; [reflexivity | exact Heq].
Qed.

Lemma receiveLoop_app myNode pre : ∀ post st,
  (∀ err, inr err ∉ pre) →
  receiveLoop myNode (pre ++ post) st =
  receiveLoop myNode post
    (foldl (fun s r => match r with
                       | inl payload => handlePayload myNode payload (emit ReceiveMessage s)
                       | inr _ => s
                       end) st pre).
Proof.
  induction pre as [|[payload|err] pre IH]; intros post st Hok; simpl.
  - reflexivity.
  - apply IH. intros err Hin. apply (Hok err). by right.
  - exfalso. apply (Hok err). by left.
Qed.

(** ** The index invariant *)

Lemma matchingContainer_found id cs :
  (∃ c, c ∈ cs ∧ (matchContainerID (Container_Id c)).1 = id) →
  ∃ c, matchingContainer id cs = [c] ∧ c ∈ cs ∧
       (matchContainerID (Container_Id c)).1 = id.
Proof.
  induction cs as [|c cs IH]; intros (c0 & Hin & Hc0).
  - inversion Hin.
  - simpl. destruct (decide ((matchContainerID (Container_Id c)).1 = id)) as [Heq|Hne].
    + exists c. split; [reflexivity | split; [by left | exact Heq]].
    + apply elem_of_cons in Hin as [->|Hin]; [contradiction|].
      destruct IH as (c' & Hm & Hin' & Hc'); [by exists c0|].
      exists c'. split; [exact Hm | split; [by right | exact Hc']].
Qed.

Lemma well_stored_filteredPod myNode pod k :
  NodeName pod = myNode →
  k ∈ canonicalKeys (Containers pod) →
  well_stored myNode k (filteredPod pod k).
Proof.
  intros Hnode (c & Hin & Hc)%elem_of_canonicalKeys.
  destruct (matchingContainer_found k (Containers pod)) as (c' & Hm & _ & Hc').
  { exists c. split; [exact Hin | by rewrite Hc]. }
  split; [|split].
  - exists c'. split; [exact Hm | exact Hc'].
  - by exists (Container_Id c).
  - exact Hnode.
Qed.

Lemma index_inv_store myNode pod m :
  NodeName pod = myNode →
  index_inv myNode m →
  index_inv myNode (foldl (storeInto pod) m (Containers pod)).
Proof.
  intros Hnode Hinv k p. rewrite lookup_storeInto.
  destruct (decide (k ∈ canonicalKeys (Containers pod))) as [Hin|Hin].
  - intros [= <-]. by apply well_stored_filteredPod.
  - apply Hinv.
Qed.

(** After a local [Modified] event every canonical key of the pod leads to
    the pod cut down to the first container carrying that key. *)
Lemma Get_after_modified myNode e deleted refresh st key :
  NodeName (Pod e) = myNode →
  key ∈ canonicalKeys (Containers (Pod e)) →
  Get (applyEvent myNode (mkK8sRedisEvent (Some e) deleted refresh) st) key
  = Some (filteredPod (Pod e) key).
Proof.
  intros Hnode Hkey. unfold Get. rewrite applyEvent_cache. simpl.
  rewrite decide_True by exact Hnode.
  rewrite lookup_storeInto. by rewrite decide_True.
Qed.

Lemma index_inv_delete myNode cs m :
  index_inv myNode m → index_inv myNode (foldl deleteFrom m cs).
Proof.
  intros Hinv k p. rewrite lookup_deleteFrom.
  destruct (decide (k ∈ canonicalKeys cs)); [discriminate | apply Hinv].
Qed.

Lemma index_inv_bootstrap myNode entities : ∀ st,
  index_inv myNode (cache st) →
  index_inv myNode (cache (foldl (bootstrapEntity myNode) st entities)).
Proof.
  induction entities as [|entity rest IH]; intros st Hinv; simpl; [exact Hinv|].
  apply IH. rewrite bootstrapEntity_cache.
  destruct (decide _) as [Hnode|]; [by apply index_inv_store | exact Hinv].
Qed.

Lemma index_inv_FetchK8sState e myNode st :
  index_inv myNode (cache st) →
  index_inv myNode (cache (FetchK8sState e myNode st).2).
Proof.
  intros Hinv. unfold FetchK8sState.
  destruct (k8sClient_Get _) as [body|err]; [|exact Hinv].
  destruct (json_Decode body) as [state|err]; [|exact Hinv].
  cbn [snd]. rewrite cache_emit, printCache_cache.
  apply index_inv_bootstrap. exact Hinv.
Qed.

Lemma index_inv_applyEvent myNode event st :
  index_inv myNode (cache st) →
  index_inv myNode (cache (applyEvent myNode event st)).
Proof.
  intros Hinv. rewrite applyEvent_cache.
  destruct (Modified event) as [m|]; [|destruct (Deleted event) as [d|]];
    try destruct (decide _); try exact Hinv.
  - by apply index_inv_store.
  - by apply index_inv_delete.
Qed.

Lemma index_inv_receiveLoop myNode recvs : ∀ st,
  index_inv myNode (cache st) →
  index_inv myNode (cache (receiveLoop myNode recvs st).2).
Proof.
  induction recvs as [|[payload|err] rest IH]; intros st Hinv; simpl;
    [exact Hinv | | exact Hinv].
  apply IH. unfold handlePayload.
  destruct (json_Unmarshal payload) as [event|err].
  - apply index_inv_applyEvent. exact Hinv.
  - exact Hinv.
Qed.

Lemma index_inv_SubscribeToRedis e pubsub myNode st :
  index_inv myNode (cache st) →
  index_inv myNode (cache (SubscribeToRedis e pubsub myNode st).2).
Proof.
  intros Hinv. unfold SubscribeToRedis.
  destruct pubsub as [recvs|]; [|exact Hinv].
  pose proof (index_inv_receiveLoop myNode recvs
                (emit (Subscribe (Redis_Channel (Redis (config e)))) st) Hinv) as H.
  destruct (receiveLoop _ _ _) as [[r|c|err|] st']; exact H.
Qed.

Lemma index_inv_K8sWatcher nodeName cfg :
  index_inv nodeName (cache (K8sWatcher nodeName cfg).2).
Proof.
  unfold K8sWatcher, NewK8sEnricher.
  pose proof (index_inv_FetchK8sState (mkK8sEnricher (watcherConfig cfg)) nodeName
                (mkState ∅ [])) as H.
  destruct (FetchK8sState _ _ _) as [[err|] st']; apply H, map_Forall_empty.
Qed.

Lemma index_inv_service nodeName cfg pubsub :
  index_inv nodeName (cache (service nodeName cfg pubsub).2).
Proof.
  unfold service. pose proof (index_inv_K8sWatcher nodeName cfg) as H.
  destruct (K8sWatcher nodeName cfg) as [[m|c|err|] st]; try exact H.
  unfold subscriber.
  pose proof (index_inv_SubscribeToRedis (mkK8sEnricher (watcherConfig cfg))
                pubsub nodeName st H) as H'.
  destruct (SubscribeToRedis _ _ _ _) as [[[err|]|c|err|] st']; exact H'.
Qed.

(** ** Records of the index *)


Lemma bootstrapEntity_other_node myNode st entity :
  NodeName (Pod entity) ≠ myNode → bootstrapEntity myNode st entity = st.
Proof. intros Hne. unfold bootstrapEntity. by rewrite decide_False. Qed.

(** C2.  An entity of another node is skipped by the bootstrap loop and
    by both event branches, leaving map and trace as they were; and every
    record the index ever holds names the local node. *)
Theorem C2_other_nodes_are_never_indexed myNode entity :
  NodeName (Pod entity) ≠ myNode →
  (∀ st, bootstrapEntity myNode st entity = st) ∧
  (∀ st pre post,
      foldl (bootstrapEntity myNode) st (pre ++ entity :: post) =
      foldl (bootstrapEntity myNode) st (pre ++ post)) ∧
  (∀ st deleted refresh,
      applyEvent myNode (mkK8sRedisEvent (Some entity) deleted refresh) st = st) ∧
  (∀ st refresh,
      applyEvent myNode (mkK8sRedisEvent None (Some entity) refresh) st = st) ∧
  (∀ cfg pubsub key pod,
      Get (service myNode cfg pubsub).2 key = Some pod →
      NodeName pod = myNode ∧ NodeName pod ≠ NodeName (Pod entity)).
Proof.
  intros Hne. split; [|split; [|split; [|split]]].
  - intros st. by apply bootstrapEntity_other_node.
  - intros st pre post. rewrite !foldl_app. simpl.
    by rewrite bootstrapEntity_other_node.
  - intros st deleted refresh. unfold applyEvent. simpl. by rewrite decide_False.
  - intros st refresh. unfold applyEvent. simpl. by rewrite decide_False.
  - intros cfg pubsub key pod Hget.
    destruct (index_inv_service myNode cfg pubsub key pod Hget) as (_ & _ & Hnode).
    split; congruence.
Qed.

(** ** Failures *)

Lemma receiveLoop_never_returns myNode recvs : ∀ st r,
  (receiveLoop myNode recvs st).1 ≠ Returned r.
Proof.
  induction recvs as [|[payload|err] rest IH]; intros st r; simpl;
    [discriminate | apply IH | discriminate].
Qed.

Lemma fetches_snoc t ev :
  fetches (t ++ [ev]) = (fetches t + (if is_http_get ev then 1 else 0))%nat.
Proof.
  unfold fetches. rewrite filter_app, length_app. f_equal.
  destruct ev; reflexivity.
Qed.

Lemma storeContainer_trace pod st c : trace (storeContainer pod st c) = trace st.
Proof.
  unfold storeContainer.
  destruct (matchContainerID (Container_Id c)) as [id [err|]]; reflexivity.
Qed.

Lemma bootstrapEntity_trace myNode st entity :
  trace (bootstrapEntity myNode st entity) = trace st.
Proof.
  unfold bootstrapEntity. destruct (decide _); [|reflexivity].
  generalize (Containers (Pod entity)) as cs. intros cs. revert st.
  induction cs as [|c cs IH]; intros st; simpl; [reflexivity|].
  rewrite IH. apply storeContainer_trace.
Qed.

Lemma bootstrap_trace myNode entities : ∀ st,
  trace (foldl (bootstrapEntity myNode) st entities) = trace st.
Proof.
  induction entities as [|entity rest IH]; intros st; simpl; [reflexivity|].
  rewrite IH. apply bootstrapEntity_trace.
Qed.

Lemma printCache_fetches st : fetches (trace (printCache st)) = fetches (trace st).
Proof.
  unfold printCache. generalize (map_to_list (cache st)) as l.
  intros l. revert st. induction l as [|kv l IH]; intros st; simpl; [reflexivity|].
  rewrite IH, trace_emit, fetches_snoc. simpl. lia.
Qed.

Lemma FetchK8sState_fetches e myNode st :
  fetches (trace (FetchK8sState e myNode st).2) = S (fetches (trace st)).
Proof.
  unfold FetchK8sState.
  destruct (k8sClient_Get _) as [body|err]; [destruct (json_Decode body) as [state|err]|];
    cbn [snd].
  - rewrite trace_emit, fetches_snoc, printCache_fetches, bootstrap_trace.
    rewrite !trace_emit, !fetches_snoc. simpl. lia.
  - rewrite !trace_emit, !fetches_snoc. simpl. lia.
  - rewrite !trace_emit, !fetches_snoc. simpl. lia.
Qed.

(** C3, as the code has it.  A failed bootstrap fetch comes back from
    [FetchK8sState] as an error after a single request, and [K8sWatcher]
    answers it with [log.Fatalf]: the process exits with status 1.  A
    failed receive makes [SubscribeToRedis] panic with the error of the
    receive, its deferred [Close] being the last thing done.  However it
    is driven, [SubscribeToRedis] never returns, with or without an
    error. *)
Theorem C3_failures_end_the_process e nodeName cfg :
  (∀ err,
      (FetchK8sState (mkK8sEnricher (watcherConfig cfg)) nodeName (mkState ∅ [])).1
      = Some err →
      ∃ st, K8sWatcher nodeName cfg = (Exited 1, st) ∧
            last (trace st) = Some (Fatalf "Failed to fetch k8s state: %v" [AErr err]) ∧
            fetches (trace st) = 1%nat ∧
            cache st = ∅) ∧
  (∀ pre err post myNode st,
      (∀ err', inr err' ∉ pre) →
      ∃ st', SubscribeToRedis e (Some (pre ++ inr err :: post)) myNode st
             = (Panicked err, st') ∧
             last (trace st') = Some PubSubClose) ∧
  (∀ pubsub myNode st r, (SubscribeToRedis e pubsub myNode st).1 ≠ Returned r).
Proof.
  split; [|split].
  - intros err Herr. unfold K8sWatcher, NewK8sEnricher.
    pose proof (FetchK8sState_fetches (mkK8sEnricher (watcherConfig cfg)) nodeName
                  (mkState ∅ [])) as Hn.
    assert (cache (FetchK8sState (mkK8sEnricher (watcherConfig cfg)) nodeName
                     (mkState ∅ [])).2 = ∅) as Hc.
    { revert Herr. unfold FetchK8sState.
      destruct (k8sClient_Get _) as [body|err0];
        [destruct (json_Decode body) as [state|err0]|]; simpl; done. }
    destruct (FetchK8sState _ _ _) as [[err0|] st']; simpl in Herr; [|discriminate].
    injection Herr as ->. eexists. split; [reflexivity|].
    rewrite trace_emit, last_snoc, fetches_snoc. simpl in *.
    split; [reflexivity | split; [rewrite Hn; reflexivity | exact Hc]].
  - intros pre err post myNode st Hok. unfold SubscribeToRedis.
    rewrite receiveLoop_app by exact Hok. simpl.
    eexists. split; [reflexivity|]. by rewrite trace_emit, last_snoc.
  - intros pubsub myNode st r. unfold SubscribeToRedis.
    destruct pubsub as [recvs|]; [|discriminate].
    pose proof (receiveLoop_never_returns myNode recvs
                  (emit (Subscribe (Redis_Channel (Redis (config e)))) st)) as H.
    destruct (receiveLoop _ _ _) as [[r'|c|err|] st']; simpl in *;
      [exfalso; by apply (H r') | discriminate..].
Qed.

(** C4.  A payload that does not decode costs one receive and one debug
    line: the map is the one before, the loop goes on with the messages
    that follow, and the run ends as, and leaves the map of, the run
    without that message. *)
Theorem C4_malformed_payload_is_skipped myNode payload err rest st :
  json_Unmarshal payload = inr err →
  let st' := emit (Debugf "Failed to parse event: %v" [AErr err])
                  (emit ReceiveMessage st) in
  receiveLoop myNode (inl payload :: rest) st = receiveLoop myNode rest st' ∧
  cache st' = cache st ∧
  ∀ pre st0,
    (receiveLoop myNode (pre ++ inl payload :: rest) st0).1 =
    (receiveLoop myNode (pre ++ rest) st0).1 ∧
    cache (receiveLoop myNode (pre ++ inl payload :: rest) st0).2 =
    cache (receiveLoop myNode (pre ++ rest) st0).2.
Proof.
  intros Herr st'. split; [|split].
  - simpl. unfold handlePayload. rewrite Herr. reflexivity.
  - reflexivity.
  - intros pre. induction pre as [|[p|err0] pre IH]; intros st0.
    + simpl. unfold handlePayload. rewrite Herr.
      apply receiveLoop_cache_ext. reflexivity.
    + simpl. apply IH.
    + simpl. split; reflexivity.
Qed.

(** ** Event algebra *)

(** C5.  On the local node, a [Modified] event for an entity followed by
    a [Deleted] event for the same entity leaves no record under the
    canonical key of any of the entity's containers. *)
Theorem C5_modified_then_deleted_is_absent myNode e i c key refresh refresh' st :
  NodeName (Pod e) = myNode →
  Containers (Pod e) !! i = Some c →
  matchContainerID (Container_Id c) = (key, None) →
  Get (applyEvent myNode (mkK8sRedisEvent None (Some e) refresh')
         (applyEvent myNode (mkK8sRedisEvent (Some e) None refresh) st)) key = None.
Proof.
  intros Hnode Hc Hkey. unfold Get. rewrite applyEvent_cache. simpl.
  rewrite decide_True by exact Hnode.
  rewrite lookup_deleteFrom, decide_True; [reflexivity|].
  apply elem_of_canonicalKeys. exists c. split; [|exact Hkey].
  by apply list_elem_of_lookup_2 in Hc.
Qed.

Lemma storeInto_twice pod cs m :
  foldl (storeInto pod) (foldl (storeInto pod) m cs) cs = foldl (storeInto pod) m cs.
Proof.
  apply map_eq. intros k. rewrite !lookup_storeInto.
  by destruct (decide (k ∈ canonicalKeys cs)).
Qed.

(** C6.  Applying a [Modified] event a second time changes nothing in the
    index: the map after two applications is the map after one, also when
    the event arrives twice on the stream; and a [Store] over a [Store]
    of the same key keeps the later record alone. *)
Theorem C6_modified_twice_is_modified_once myNode e deleted refresh st :
  let event := mkK8sRedisEvent (Some e) deleted refresh in
  cache (applyEvent myNode event (applyEvent myNode event st)) =
  cache (applyEvent myNode event st) ∧
  (∀ payload rest,
      json_Unmarshal payload = inl event →
      (receiveLoop myNode (inl payload :: inl payload :: rest) st).1 =
      (receiveLoop myNode (inl payload :: rest) st).1 ∧
      cache (receiveLoop myNode (inl payload :: inl payload :: rest) st).2 =
      cache (receiveLoop myNode (inl payload :: rest) st).2) ∧
  (∀ id pod pod',
      cache (Store id pod (Store id pod' st)) = cache (Store id pod st)).
Proof.
  intros event.
  assert (∀ s, cache (applyEvent myNode event (applyEvent myNode event s)) =
               cache (applyEvent myNode event s)) as Htwice.
  { intros s. rewrite (applyEvent_cache myNode event (applyEvent _ _ _)).
    rewrite applyEvent_cache. simpl.
    destruct (decide _); [apply storeInto_twice | reflexivity]. }
  split; [apply Htwice | split].
  - intros payload rest Hdec. simpl. unfold handlePayload. rewrite Hdec.
    apply receiveLoop_cache_ext.
    rewrite (applyEvent_cache myNode event (emit _ _)), cache_emit.
    rewrite <- (applyEvent_cache myNode event (applyEvent _ _ _)).
    rewrite Htwice. reflexivity.
  - intros id pod pod'. simpl. apply insert_insert_eq.
Qed.

(** C7.  An event that only carries [Refresh] leaves map and trace as they
    were: no record is touched and no request for the cluster state is
    issued; on the stream it costs the receive and nothing else. *)
Theorem C7_refresh_changes_nothing myNode st :
  applyEvent myNode (mkK8sRedisEvent None None true) st = st ∧
  fetches (trace (applyEvent myNode (mkK8sRedisEvent None None true) st)) =
  fetches (trace st) ∧
  (∀ payload rest,
      json_Unmarshal payload = inl (mkK8sRedisEvent None None true) →
      receiveLoop myNode (inl payload :: rest) st =
      receiveLoop myNode rest (emit ReceiveMessage st)).
Proof.
  split; [reflexivity | split; [reflexivity|]].
  intros payload rest Hdec. simpl. unfold handlePayload. rewrite Hdec. reflexivity.
Qed.

(** C8.  One call of [FetchK8sState] issues one request.  If the request
    fails its error is returned at once; if the body does not decode, the
    decoder's error is returned once the body is closed; in both cases
    the map is untouched.  The retry count of the configuration plays no
    part: the call does the same for every value of it. *)
Theorem C8_single_fetch_no_retry e myNode st :
  let r := FetchK8sState e myNode st in
  let requested :=
    emit (HttpGet (podsURL e myNode))
      (emit (Printf "fetching k8s state from %s/api/v1/k8s/pods?node=%s\n"
                    [AStr (URL (K8sWatcher_cfg (config e))); AStr myNode]) st) in
  fetches (trace r.2) = S (fetches (trace st)) ∧
  (∀ err, k8sClient_Get (podsURL e myNode) = inr err →
          r = (Some err, requested)) ∧
  (∀ body err, k8sClient_Get (podsURL e myNode) = inl body →
               json_Decode body = inr err →
               r = (Some err, emit BodyClose requested)) ∧
  (∀ n, FetchK8sState (withRetryAttempts n e) myNode st = r).
Proof.
  intros r requested. subst r requested. split; [|split; [|split]].
  - apply FetchK8sState_fetches.
  - intros err Hget. unfold FetchK8sState. rewrite Hget. reflexivity.
  - intros body err Hget Hdec. unfold FetchK8sState. rewrite Hget, Hdec. reflexivity.
  - intros n. reflexivity.
Qed.

(** ** Reading the index after an event *)

Lemma lookup_modified myNode e deleted refresh st k :
  cache (applyEvent myNode (mkK8sRedisEvent (Some e) deleted refresh) st) !! k =
  if decide (NodeName (Pod e) = myNode)
  then if decide (k ∈ canonicalKeys (Containers (Pod e)))
       then Some (filteredPod (Pod e) k) else cache st !! k
  else cache st !! k.
Proof.
  rewrite applyEvent_cache. simpl.
  destruct (decide _); [apply lookup_storeInto | reflexivity].
Qed.

Lemma lookup_deleted myNode e refresh st k :
  cache (applyEvent myNode (mkK8sRedisEvent None (Some e) refresh) st) !! k =
  if decide (NodeName (Pod e) = myNode)
  then if decide (k ∈ canonicalKeys (Containers (Pod e)))
       then None else cache st !! k
  else cache st !! k.
Proof.
  rewrite applyEvent_cache. simpl.
  destruct (decide _); [apply lookup_deleteFrom | reflexivity].
Qed.

Lemma matchingContainer_first id cs c :
  matchingContainer id cs = [c] →
  ∃ i, cs !! i = Some c ∧
       (matchContainerID (Container_Id c)).1 = id ∧
       ∀ j c', (j < i)%nat → cs !! j = Some c' →
               (matchContainerID (Container_Id c')).1 ≠ id.
Proof.
  induction cs as [|c0 cs IH]; simpl; [discriminate|].
  destruct (decide ((matchContainerID (Container_Id c0)).1 = id)) as [Heq|Hne].
  - intros [= <-]. exists 0%nat. split; [reflexivity | split; [exact Heq|]]. lia.
  - intros (i & Hi & Hc & Hbefore)%IH. exists (S i).
    split; [exact Hi | split; [exact Hc|]].
    intros [|j] c' Hlt Hj; simpl in Hj.
    + injection Hj as <-. exact Hne.
    + apply (Hbefore j c'); [lia | exact Hj].
Qed.

(** X1.  A [Modified] event of the local node rewrites the record of every
    canonical key of the pod's containers and leaves the record of every
    other key as it was. *)
Theorem modified_event_sets_exactly_the_pod_keys myNode e deleted refresh st key :
  NodeName (Pod e) = myNode →
  Get (applyEvent myNode (mkK8sRedisEvent (Some e) deleted refresh) st) key =
  if decide (key ∈ canonicalKeys (Containers (Pod e)))
  then Some (filteredPod (Pod e) key)
  else Get st key.
Proof.
  intros Hnode. unfold Get. rewrite lookup_modified.
  by rewrite decide_True by exact Hnode.
Qed.

(** X2.  The record a [Modified] event stores under a key carries the pod's
    name, namespace, node, addresses and owner, and as its only container
    the first one of the pod, in list order, that the matcher maps to the
    key: a later container with the same identifier is never the one
    stored. *)
Theorem stored_record_keeps_pod_and_first_match myNode e deleted refresh st key :
  NodeName (Pod e) = myNode →
  key ∈ canonicalKeys (Containers (Pod e)) →
  ∃ pod i c,
    Get (applyEvent myNode (mkK8sRedisEvent (Some e) deleted refresh) st) key = Some pod ∧
    Name pod = Name (Pod e) ∧ Namespace pod = Namespace (Pod e) ∧
    NodeName pod = NodeName (Pod e) ∧ Ips pod = Ips (Pod e) ∧
    Owner pod = Owner (Pod e) ∧
    Containers pod = [c] ∧
    Containers (Pod e) !! i = Some c ∧
    (matchContainerID (Container_Id c)).1 = key ∧
    ∀ j c', (j < i)%nat → Containers (Pod e) !! j = Some c' →
            (matchContainerID (Container_Id c')).1 ≠ key.
Proof.
  intros Hnode Hkey.
  destruct (well_stored_filteredPod myNode (Pod e) key Hnode Hkey)
    as ((c & Hcs & _) & _ & _).
  destruct (matchingContainer_first key (Containers (Pod e)) c Hcs)
    as (i & Hi & Hc & Hbefore).
  exists (filteredPod (Pod e) key), i, c.
  split; [by apply Get_after_modified|].
  repeat split; try reflexivity; assumption.
Qed.

(** X3.  A [Deleted] event of the local node removes the record of every
    canonical key of the pod's containers and leaves the record of every
    other key as it was. *)
Theorem deleted_event_removes_exactly_the_pod_keys myNode e refresh st key :
  NodeName (Pod e) = myNode →
  Get (applyEvent myNode (mkK8sRedisEvent None (Some e) refresh) st) key =
  if decide (key ∈ canonicalKeys (Containers (Pod e)))
  then None
  else Get st key.
Proof.
  intros Hnode. unfold Get. rewrite lookup_deleted.
  by rewrite decide_True by exact Hnode.
Qed.

(** X4.  Deleting what is not there changes nothing: a [Deleted] event for
    a pod none of whose keys the index holds leaves the index as it was,
    and so does a [Deleted] event that comes a second time. *)
Theorem deleted_event_on_absent_keys_is_noop myNode e refresh st :
  (∀ key, key ∈ canonicalKeys (Containers (Pod e)) → Get st key = None) →
  let event := mkK8sRedisEvent None (Some e) refresh in
  cache (applyEvent myNode event st) = cache st ∧
  ∀ st0, cache (applyEvent myNode event (applyEvent myNode event st0)) =
         cache (applyEvent myNode event st0).
Proof.
  intros Habsent event. split.
  - apply map_eq. intros k. subst event. rewrite lookup_deleted.
    destruct (decide (NodeName (Pod e) = myNode)); [|reflexivity].
    destruct (decide (k ∈ canonicalKeys (Containers (Pod e)))) as [Hin|]; [|reflexivity].
    symmetry. by apply Habsent.
  - intros st0. apply map_eq. intros k. subst event. rewrite !lookup_deleted.
    destruct (decide (NodeName (Pod e) = myNode)); [|reflexivity].
    by destruct (decide (k ∈ canonicalKeys (Containers (Pod e)))).
Qed.

(** X5.  A [Deleted] event wipes out a [Modified] event of the same entity
    that came before it: the index is the one the [Deleted] event alone
    would have left. *)
Theorem deleted_after_modified_is_deleted_alone myNode e refresh refresh' st :
  cache (applyEvent myNode (mkK8sRedisEvent None (Some e) refresh')
           (applyEvent myNode (mkK8sRedisEvent (Some e) None refresh) st)) =
  cache (applyEvent myNode (mkK8sRedisEvent None (Some e) refresh') st).
Proof.
  apply map_eq. intros k. rewrite !lookup_deleted, lookup_modified.
  destruct (decide (NodeName (Pod e) = myNode)); [|reflexivity].
  by destruct (decide (k ∈ canonicalKeys (Containers (Pod e)))).
Qed.

(** X6.  [Modified] events of two pods that share no canonical key can be
    applied in either order: the index is the same. *)
Theorem modified_events_of_disjoint_pods_commute
        myNode e1 e2 deleted1 deleted2 refresh1 refresh2 st :
  (∀ key, key ∈ canonicalKeys (Containers (Pod e1)) →
          key ∉ canonicalKeys (Containers (Pod e2))) →
  let ev1 := mkK8sRedisEvent (Some e1) deleted1 refresh1 in
  let ev2 := mkK8sRedisEvent (Some e2) deleted2 refresh2 in
  cache (applyEvent myNode ev2 (applyEvent myNode ev1 st)) =
  cache (applyEvent myNode ev1 (applyEvent myNode ev2 st)).
Proof.
  intros Hdisj ev1 ev2. subst ev1 ev2. apply map_eq. intros k.
  rewrite !lookup_modified.
  destruct (decide (NodeName (Pod e1) = myNode)),
           (decide (NodeName (Pod e2) = myNode)); try reflexivity.
  destruct (decide (k ∈ canonicalKeys (Containers (Pod e1)))) as [H1|H1],
           (decide (k ∈ canonicalKeys (Containers (Pod e2)))) as [H2|H2];
    try reflexivity.
  exfalso. by apply (Hdisj k).
Qed.

(** X7.  The last [Modified] event wins: when a local pod covers the
    canonical keys of the pod of an earlier event, nothing of the earlier
    event is left in the index. *)
Theorem later_modified_event_overwrites
        myNode e1 e2 deleted1 deleted2 refresh1 refresh2 st :
  NodeName (Pod e2) = myNode →
  (∀ key, key ∈ canonicalKeys (Containers (Pod e1)) →
          key ∈ canonicalKeys (Containers (Pod e2))) →
  let ev1 := mkK8sRedisEvent (Some e1) deleted1 refresh1 in
  let ev2 := mkK8sRedisEvent (Some e2) deleted2 refresh2 in
  cache (applyEvent myNode ev2 (applyEvent myNode ev1 st)) =
  cache (applyEvent myNode ev2 st).
Proof.
  intros Hnode Hsub ev1 ev2. subst ev1 ev2. apply map_eq. intros k.
  rewrite !lookup_modified.
  destruct (decide (NodeName (Pod e2) = myNode)); [|contradiction].
  destruct (decide (k ∈ canonicalKeys (Containers (Pod e2)))) as [H2|H2];
    [reflexivity|].
  destruct (decide (NodeName (Pod e1) = myNode)); [|reflexivity].
  destruct (decide (k ∈ canonicalKeys (Containers (Pod e1)))) as [H1|H1];
    [|reflexivity].
  exfalso. by apply H2, Hsub.
Qed.

(** ** The index after the bootstrap *)

Lemma is_Some_bootstrapEntity myNode st entity k :
  is_Some (cache (bootstrapEntity myNode st entity) !! k) ↔
  is_Some (cache st !! k) ∨
  (NodeName (Pod entity) = myNode ∧ k ∈ canonicalKeys (Containers (Pod entity))).
Proof.
  rewrite bootstrapEntity_cache.
  destruct (decide (NodeName (Pod entity) = myNode)) as [Hnode|Hnode].
  - rewrite lookup_storeInto.
    destruct (decide (k ∈ canonicalKeys (Containers (Pod entity)))) as [Hin|Hin].
    + split; [by right | by eexists].
    + split; [by left | by intros [?|[_ ?]]].
  - split; [by left | by intros [?|[? _]]].
Qed.

Lemma is_Some_bootstrap myNode entities : ∀ st k,
  is_Some (cache (foldl (bootstrapEntity myNode) st entities) !! k) ↔
  is_Some (cache st !! k) ∨
  ∃ entity, entity ∈ entities ∧ NodeName (Pod entity) = myNode ∧
            k ∈ canonicalKeys (Containers (Pod entity)).
Proof.
  induction entities as [|e es IH]; intros st k; simpl.
  - split; [by left | intros [?|(e & He & _)]; [done | inversion He]].
  - rewrite IH, is_Some_bootstrapEntity. split.
    + intros [[?|[Hn Hk]]|(e' & Hin & Hn & Hk)].
      * by left.
      * right. exists e. split; [by left | done].
      * right. exists e'. split; [by right | done].
    + intros [?|(e' & Hin & Hn & Hk)]; [by left; left|].
      apply elem_of_cons in Hin as [->|Hin].
      * left; right. done.
      * right. by exists e'.
Qed.

Lemma lookup_bootstrap_untouched myNode entities k : ∀ st,
  (∀ entity, entity ∈ entities → NodeName (Pod entity) = myNode →
             k ∉ canonicalKeys (Containers (Pod entity))) →
  cache (foldl (bootstrapEntity myNode) st entities) !! k = cache st !! k.
Proof.
  induction entities as [|e es IH]; intros st Hfree; simpl; [reflexivity|].
  rewrite IH.
  - rewrite bootstrapEntity_cache.
    destruct (decide (NodeName (Pod e) = myNode)) as [Hnode|]; [|reflexivity].
    rewrite lookup_storeInto, decide_False; [reflexivity|].
    apply Hfree; [by left | exact Hnode].
  - intros e' Hin. apply Hfree. by right.
Qed.

(** X8.  When the fetch and the decoding succeed, [K8sWatcher] returns,
    after a single request, the index that holds a record for exactly the
    canonical keys of the containers of the fetched pods of the local
    node, and the last thing it does is start the subscriber. *)
Theorem bootstrap_indexes_exactly_the_local_containers nodeName cfg body state :
  k8sClient_Get (K8SWatcherHost cfg ++ "/api/v1/k8s/pods?node=" ++ nodeName)%string
  = inl body →
  json_Decode body = inl state →
  ∃ st, K8sWatcher nodeName cfg = (Returned (cache st), st) ∧
        (∀ key, is_Some (Get st key) ↔
                ∃ entity, entity ∈ Entities state ∧
                          NodeName (Pod entity) = nodeName ∧
                          key ∈ canonicalKeys (Containers (Pod entity))) ∧
        fetches (trace st) = 1%nat ∧
        last (trace st) = Some (GoSubscribeToRedis nodeName).
Proof.
  intros Hget Hdec.
  pose proof (FetchK8sState_fetches (mkK8sEnricher (watcherConfig cfg)) nodeName
                (mkState ∅ [])) as Hn.
  unfold K8sWatcher, NewK8sEnricher. revert Hn.
  unfold FetchK8sState, podsURL. cbn [config watcherConfig K8sWatcher_cfg URL].
  rewrite Hget, Hdec. cbn [snd]. intros Hn.
  eexists. split; [reflexivity | split; [|split]].
  - intros key. unfold Get. rewrite !cache_emit, printCache_cache.
    rewrite is_Some_bootstrap. rewrite !cache_emit. simpl.
    split; [intros [[p Hp]|H]; [by rewrite lookup_empty in Hp | exact H] | by right].
  - rewrite trace_emit, fetches_snoc, Hn. reflexivity.
  - rewrite trace_emit. apply last_snoc.
Qed.

(** X9.  When several fetched pods of the local node carry a container
    with the same canonical key, the record of the last such pod of the
    reply is the one the bootstrap leaves under that key. *)
Theorem bootstrap_keeps_the_last_pod_of_a_key myNode pre entity post st key :
  NodeName (Pod entity) = myNode →
  key ∈ canonicalKeys (Containers (Pod entity)) →
  (∀ later, later ∈ post → NodeName (Pod later) = myNode →
            key ∉ canonicalKeys (Containers (Pod later))) →
  Get (foldl (bootstrapEntity myNode) st (pre ++ entity :: post)) key
  = Some (filteredPod (Pod entity) key).
Proof.
  intros Hnode Hkey Hlater. unfold Get. rewrite foldl_app. simpl.
  rewrite lookup_bootstrap_untouched by exact Hlater.
  rewrite bootstrapEntity_cache, decide_True by exact Hnode.
  rewrite lookup_storeInto. by rewrite decide_True.
Qed.

(** ** Size of the index *)

Lemma size_storeInto pod cs : ∀ m,
  (size m ≤ size (foldl (storeInto pod) m cs) ≤ size m + length cs)%nat.
Proof.
  induction cs as [|c cs IH]; intros m; simpl; [lia|].
  specialize (IH (storeInto pod m c)).
  assert (size m ≤ size (storeInto pod m c) ≤ S (size m))%nat as Hstep.
  { unfold storeInto. destruct (canonicalKey c) as [id|]; [|lia].
    rewrite map_size_insert. destruct (m !! id); simpl; lia. }
  lia.
Qed.

Lemma size_deleteFrom cs : ∀ m,
  (size (foldl deleteFrom m cs) ≤ size m)%nat.
Proof.
  induction cs as [|c cs IH]; intros m; simpl; [lia|].
  specialize (IH (deleteFrom m c)).
  assert (size (deleteFrom m c) ≤ size m)%nat as Hstep.
  { unfold deleteFrom. destruct (canonicalKey c) as [id|]; [|lia].
    rewrite map_size_delete. destruct (m !! id); simpl; lia. }
  lia.
Qed.

(** X10.  One event adds at most one record per container of a modified
    pod: the index never grows by more than the pod has containers, a
    [Modified] event never shrinks it, and an event without [Modified]
    never grows it. *)
Theorem event_grows_index_by_at_most_the_pod_containers myNode event st :
  (size (cache (applyEvent myNode event st)) ≤
   size (cache st) + match Modified event with
                     | Some m => length (Containers (Pod m))
                     | None => 0
                     end)%nat ∧
  (is_Some (Modified event) →
   (size (cache st) ≤ size (cache (applyEvent myNode event st)))%nat).
Proof.
  rewrite applyEvent_cache.
  destruct (Modified event) as [m|]; [|destruct (Deleted event) as [d|]].
  - destruct (decide _); [|split; intros; lia].
    pose proof (size_storeInto (Pod m) (Containers (Pod m)) (cache st)).
    split; intros; lia.
  - split; [|by intros [? ?]].
    destruct (decide _); [|lia].
    pose proof (size_deleteFrom (Containers (Pod d)) (cache st)). lia.
  - split; [lia | by intros [? ?]].
Qed.

(** ** What is logged *)

Lemma printCache_trace_gen l : ∀ st,
  trace (foldl (fun s kv => emit (Debugf "key: %s value: %s" [AStr kv.1; APod kv.2]) s)
               st l)
  = (trace st ++
     map (fun kv : string * K8sPod =>
            Debugf "key: %s value: %s" [AStr kv.1; APod kv.2]) l)%list.
Proof.
  induction l as [|kv l IH]; intros st; simpl.
  - by rewrite app_nil_r.
  - rewrite IH, trace_emit, <- app_assoc. reflexivity.
Qed.

(** X11.  The listing at the end of the bootstrap writes one debug line per
    record of the index, naming its key and the record, and touches no
    record. *)
Theorem printCache_logs_every_record_once st :
  ∃ lines,
    trace (printCache st) = (trace st ++ lines)%list ∧
    length lines = size (cache st) ∧
    (∀ key pod, Debugf "key: %s value: %s" [AStr key; APod pod] ∈ lines ↔
                Get st key = Some pod) ∧
    cache (printCache st) = cache st.
Proof.
  eexists. split; [apply printCache_trace_gen | split; [|split]].
  - rewrite length_map. apply length_map_to_list.
  - intros key pod. rewrite list_elem_of_fmap. unfold Get. split.
    + intros ([k p] & [= -> ->] & Hin). by apply elem_of_map_to_list in Hin.
    + intros Hget. exists (key, pod). split; [reflexivity|].
      by apply elem_of_map_to_list.
  - apply printCache_cache.
Qed.

Lemma modifiedContainer_trace pod cs : ∀ st,
  trace (foldl (modifiedContainer pod) st cs)
  = (trace st ++ replicate (length cs) (Debugf "modified event  %s" [APod pod]))%list.
Proof.
  induction cs as [|c cs IH]; intros st; simpl.
  - by rewrite app_nil_r.
  - rewrite IH. unfold modifiedContainer.
    rewrite trace_emit, storeContainer_trace, <- app_assoc. reflexivity.
Qed.

Lemma deletedContainer_trace pod cs : ∀ st,
  trace (foldl (deletedContainer pod) st cs)
  = (trace st ++ replicate (length cs) (Debugf "delete event %s" [APod pod]))%list.
Proof.
  induction cs as [|c cs IH]; intros st; simpl.
  - by rewrite app_nil_r.
  - rewrite IH. unfold deletedContainer. rewrite trace_emit.
    destruct (matchContainerID (Container_Id c)) as [id [err|]];
      rewrite <- app_assoc; reflexivity.
Qed.

(** X12.  For a pod of the local node the event loop writes one debug line
    per container of the pod, whether the matcher accepts the container or
    not: a [Modified] event writes as many "modified event" lines as the
    pod has containers, a [Deleted] event as many "delete event" lines. *)
Theorem event_logs_one_line_per_container myNode e refresh st :
  NodeName (Pod e) = myNode →
  trace (applyEvent myNode (mkK8sRedisEvent (Some e) None refresh) st)
  = (trace st ++ replicate (length (Containers (Pod e)))
                           (Debugf "modified event  %s" [APod (Pod e)]))%list ∧
  trace (applyEvent myNode (mkK8sRedisEvent None (Some e) refresh) st)
  = (trace st ++ replicate (length (Containers (Pod e)))
                           (Debugf "delete event %s" [APod (Pod e)]))%list.
Proof.
  intros Hnode. unfold applyEvent. simpl.
  rewrite !decide_True by exact Hnode.
  split; [apply modifiedContainer_trace | apply deletedContainer_trace].
Qed.

(** ** The loop after a failed receive *)

Lemma receiveLoop_after_error myNode err post pre : ∀ st,
  receiveLoop myNode (pre ++ inr err :: post) st =
  receiveLoop myNode (pre ++ [inr err]) st.
Proof.
  induction pre as [|[payload|err0] pre IH]; intros st; simpl;
    [reflexivity | apply IH | reflexivity].
Qed.

(** X13.  Nothing that the subscription would deliver after a failed
    receive is ever looked at: the call ends, and leaves the index and the
    trace, as if the failure had been the last thing delivered. *)
Theorem nothing_is_processed_after_a_failed_receive e myNode pre err post st :
  SubscribeToRedis e (Some (pre ++ inr err :: post)) myNode st =
  SubscribeToRedis e (Some (pre ++ [inr err])) myNode st ∧
  ∃ err', (SubscribeToRedis e (Some (pre ++ inr err :: post)) myNode st).1
          = Panicked err'.
Proof.
  unfold SubscribeToRedis. rewrite receiveLoop_after_error. split; [reflexivity|].
  generalize (emit (Subscribe (Redis_Channel (Redis (config e)))) st) as st0.
  induction pre as [|[payload|err0] pre IH]; intros st0; simpl.
  - by exists err.
  - apply IH.
  - by exists err0.
Qed.

End Reconciliation.

(** ** The statements at work on the sample cluster *)




Lemma C2_other_nodes_witness :
  NodeName (Pod (mkK8sEntity Sample.db1)) ≠ "node-A" ∧
  ∀ st, bootstrapEntity Sample.matcher "node-A" st (mkK8sEntity Sample.db1) = st.
Proof.
  assert (NodeName (Pod (mkK8sEntity Sample.db1)) ≠ "node-A") as Hne
    by (vm_compute; discriminate).
  split; [exact Hne|].
  exact (proj1 (C2_other_nodes_are_never_indexed
                  Sample.matcher Sample.httpGet Sample.decodeState Sample.decodeEvent
                  "node-A" (mkK8sEntity Sample.db1) Hne)).
Defined.

(** The claim C3 makes, read on the sample cluster: the watcher is down, the
    subscription breaks at its first receive.  Neither call returns to its
    caller: the first ends the process with status 1, the second panics. *)
Lemma C3_failures_are_not_returned :
  (K8sWatcher Sample.matcher Sample.httpGet Sample.decodeState
              "node-A" Sample.cfgDown).1 = Exited 1 ∧
  (SubscribeToRedis Sample.matcher Sample.decodeEvent
                    (mkK8sEnricher (watcherConfig Sample.cfg))
                    (Some [inr "EOF"]) "node-A" (mkState ∅ [])).1 = Panicked "EOF" ∧
  ¬ (∃ index, (K8sWatcher Sample.matcher Sample.httpGet Sample.decodeState
                          "node-A" Sample.cfgDown).1 = Returned index) ∧
  ¬ (∃ result, (SubscribeToRedis Sample.matcher Sample.decodeEvent
                                 (mkK8sEnricher (watcherConfig Sample.cfg))
                                 (Some [inr "EOF"]) "node-A" (mkState ∅ [])).1
               = Returned result).
Proof.
  split; [vm_compute; reflexivity|].
  split; [vm_compute; reflexivity|].
  split; intros [x Hx]; vm_compute in Hx; discriminate Hx.
Qed.

Lemma C3_failures_witness :
  ∃ st, K8sWatcher Sample.matcher Sample.httpGet Sample.decodeState
                   "node-A" Sample.cfgDown = (Exited 1, st) ∧
        last (trace st) = Some (Fatalf "Failed to fetch k8s state: %v"
                                       [AErr "dial tcp: connection refused"]) ∧
        fetches (trace st) = 1%nat ∧
        cache st = ∅.
Proof.
  apply (proj1 (C3_failures_end_the_process
                  Sample.matcher Sample.httpGet Sample.decodeState Sample.decodeEvent
                  (mkK8sEnricher (watcherConfig Sample.cfg)) "node-A" Sample.cfgDown)).
  vm_compute; reflexivity.
Defined.

Lemma C4_malformed_payload_witness :
  Sample.decodeEvent "{not json" = inr "unexpected end of JSON input" ∧
  cache (receiveLoop Sample.matcher Sample.decodeEvent "node-A"
           ([inl "modified web-1"] ++ inl "{not json" :: [inl "deleted web-1"])
           (mkState ∅ [])).2
  = cache (receiveLoop Sample.matcher Sample.decodeEvent "node-A"
             ([inl "modified web-1"] ++ [inl "deleted web-1"]) (mkState ∅ [])).2.
Proof.
  assert (Sample.decodeEvent "{not json" = inr "unexpected end of JSON input") as Hbad
    by (vm_compute; reflexivity).
  split; [exact Hbad|].
  exact (proj2 (proj2 (proj2 (C4_malformed_payload_is_skipped
                                Sample.matcher Sample.decodeEvent "node-A" "{not json"
                                "unexpected end of JSON input" [inl "deleted web-1"]
                                (mkState ∅ []) Hbad))
                      [inl "modified web-1"] (mkState ∅ []))).
Defined.

Lemma C5_modified_then_deleted_witness :
  NodeName (Pod (mkK8sEntity Sample.web1)) = "node-A" ∧
  Containers (Pod (mkK8sEntity Sample.web1)) !! 0%nat = Some Sample.app ∧
  Sample.matcher (Container_Id Sample.app) = ("abcdef0123456789", None) ∧
  Get (applyEvent Sample.matcher "node-A"
         (mkK8sRedisEvent None (Some (mkK8sEntity Sample.web1)) false)
         (applyEvent Sample.matcher "node-A"
            (mkK8sRedisEvent (Some (mkK8sEntity Sample.web1)) None false)
            (mkState ∅ []))) "abcdef0123456789" = None.
Proof.
  split; [reflexivity|]. split; [reflexivity|]. split; [vm_compute; reflexivity|].
  apply (C5_modified_then_deleted_is_absent Sample.matcher "node-A"
           (mkK8sEntity Sample.web1) 0%nat Sample.app "abcdef0123456789" false false
           (mkState ∅ [])).
  - reflexivity.
  - reflexivity.
  - vm_compute; reflexivity.
Defined.

(** The retry count on the sample cluster: a watcher that is down is asked
    once, whatever the count. *)
Lemma C8_single_fetch_witness :
  Sample.httpGet (podsURL (mkK8sEnricher (watcherConfig Sample.cfgDown)) "node-A")
  = inr "dial tcp: connection refused" ∧
  FetchK8sState Sample.matcher Sample.httpGet Sample.decodeState
                (withRetryAttempts 10 (mkK8sEnricher (watcherConfig Sample.cfgDown)))
                "node-A" (mkState ∅ [])
  = FetchK8sState Sample.matcher Sample.httpGet Sample.decodeState
                  (mkK8sEnricher (watcherConfig Sample.cfgDown)) "node-A" (mkState ∅ []).
Proof.
  split; [vm_compute; reflexivity|].
  exact (proj2 (proj2 (proj2 (C8_single_fetch_no_retry
                                Sample.matcher Sample.httpGet Sample.decodeState
                                (mkK8sEnricher (watcherConfig Sample.cfgDown)) "node-A"
                                (mkState ∅ [])))) 10%Z).
Defined.

(** ** The file-ID mappers *)

Section MapperFacts.

Context {FrameMappingFile SyncedLRU : Type}.
Variable zeroFrameMappingFile : FrameMappingFile.
Variable lru_Get :
  SyncedLRU → processmanager.FileID → SyncedLRU * (FrameMappingFile * bool).

Local Abbreviation MapGet := (processmanager.MapFileIDMapper_Get _ zeroFrameMappingFile).
Local Abbreviation MapSet := (processmanager.MapFileIDMapper_Set _).
Local Abbreviation LruGet :=
  (processmanager.lruFileIDMapper_Get _ zeroFrameMappingFile _ lru_Get).

(** C10.  [MapFileIDMapper.Get] answers [true] for every key.  For a key
    the map does not hold it returns the zero value, exactly what it
    returns once the zero value has been stored under that key, so its
    boolean tells nothing; [lruFileIDMapper.Get] answers [false] with the
    zero value when its cache misses. *)
Theorem C10_map_mapper_always_reports_found
        (fm : processmanager.MapFileIDMapper FrameMappingFile)
        (key : processmanager.FileID) :
  processmanager.fileMap _ fm !! key = None →
  MapGet fm key = (zeroFrameMappingFile, true) ∧
  MapGet (MapSet fm key zeroFrameMappingFile) key = MapGet fm key ∧
  (∀ fm' key', (MapGet fm' key').2 = true) ∧
  (∀ lfm, (lru_Get (processmanager.lru_cache _ lfm) key).2.2 = false →
          (LruGet lfm key).1.1 = (zeroFrameMappingFile, false)).
Proof.
  intros Habsent. split; [|split; [|split]].
  - unfold processmanager.MapFileIDMapper_Get. by rewrite Habsent.
  - unfold processmanager.MapFileIDMapper_Get, processmanager.MapFileIDMapper_Set.
    simpl. by rewrite lookup_insert_eq, Habsent.
  - intros fm' key'. unfold processmanager.MapFileIDMapper_Get.
    by destruct (processmanager.fileMap _ fm' !! key').
  - intros lfm Hmiss. unfold processmanager.lruFileIDMapper_Get.
    destruct (lru_Get _ key) as [c [v ok]]. simpl in Hmiss. by subst ok.
Qed.

End MapperFacts.

Lemma C10_map_mapper_witness :
  processmanager.fileMap Z (processmanager.NewMapFileIDMapper Z) !! 42%Z = None ∧
  processmanager.MapFileIDMapper_Get Z 0%Z (processmanager.NewMapFileIDMapper Z) 42%Z
  = (0%Z, true) ∧
  (processmanager.lruFileIDMapper_Get Z 0%Z (list (Z * Z)) Sample.lruGet
     (processmanager.mkLruFileIDMapper _ [(7%Z, 70%Z)]) 42%Z).1.1 = (0%Z, false).
Proof.
  assert (processmanager.fileMap Z (processmanager.NewMapFileIDMapper Z) !! 42%Z = None)
    as Habsent by reflexivity.
  pose proof (C10_map_mapper_always_reports_found 0%Z Sample.lruGet
                (processmanager.NewMapFileIDMapper Z) 42%Z Habsent) as (H1 & _ & _ & H4).
  split; [exact Habsent | split; [exact H1|]].
  apply H4. reflexivity.
Defined.

(** ** Scenarios of the design document, run on the model *)

Example bootstrap_indexes_local_pod :
  (K8sWatcher Sample.matcher Sample.httpGet Sample.decodeState "node-A" Sample.cfg).1
  = Returned
      (<["0123456789abcdef" :=
           mkK8sPod "web-1" "default" "node-A" [Sample.sidecar] ["10.0.0.5"]
                    (mkK8sOwner "web" "ReplicaSet")]>
         (<["abcdef0123456789" :=
              mkK8sPod "web-1" "default" "node-A" [Sample.app] ["10.0.0.5"]
                       (mkK8sOwner "web" "ReplicaSet")]> ∅)).
Proof. vm_compute. reflexivity. Qed.

Example deleted_event_empties_index :
  cache (service Sample.matcher Sample.httpGet Sample.decodeState Sample.decodeEvent
                 "node-A" Sample.cfg (Some [inl "deleted web-1"])).2 = ∅.
Proof. vm_compute. reflexivity. Qed.

Example other_node_event_is_ignored :
  cache (service Sample.matcher Sample.httpGet Sample.decodeState Sample.decodeEvent
                 "node-A" Sample.cfg (Some [inl "modified db-1"])).2
  = cache (K8sWatcher Sample.matcher Sample.httpGet Sample.decodeState
                      "node-A" Sample.cfg).2.
Proof. vm_compute. reflexivity. Qed.

Example garbled_state_is_fatal :
  K8sWatcher Sample.matcher Sample.httpGet Sample.decodeState "node-A"
             (mkConfig "redis" 6379 "http://garbled")
  = (Exited 1,
     mkState ∅
       [Printf "fetching k8s state from %s/api/v1/k8s/pods?node=%s\n"
               [AStr "http://garbled"; AStr "node-A"];
        HttpGet "http://garbled/api/v1/k8s/pods?node=node-A";
        BodyClose;
        Fatalf "Failed to fetch k8s state: %v"
               [AErr "invalid character '<' looking for beginning of value"]]).
Proof. vm_compute. reflexivity. Qed.

(** ** More on the file-ID mappers *)

(** X14.  The hash of a file ID is its low 32 bits: it lies below 2^32, a
    file ID below 2^32 is its own hash, and two file IDs have the same
    hash exactly when they differ by a multiple of 2^32. *)
Theorem identityHash_is_the_low_32_bits (key key' : processmanager.FileID) :
  (0 ≤ processmanager.identityHash key < 2 ^ 32)%Z ∧
  processmanager.identityHash key = Z.land key (Z.ones 32) ∧
  ((0 ≤ key < 2 ^ 32)%Z → processmanager.identityHash key = key) ∧
  (processmanager.identityHash key = processmanager.identityHash key' ↔
   ∃ n : Z, key = (key' + n * 2 ^ 32)%Z).
Proof.
  unfold processmanager.identityHash. split; [|split; [|split]].
  - apply Z.mod_pos_bound. lia.
  - by rewrite Z.land_ones by lia.
  - intros Hrange. by apply Z.mod_small.
  - split.
    + intros Heq. exists (key / 2 ^ 32 - key' / 2 ^ 32)%Z.
      pose proof (Z.div_mod key (2 ^ 32)) as H1.
      pose proof (Z.div_mod key' (2 ^ 32)) as H2. lia.
    + intros [n ->]. by rewrite Z.mod_add by lia.
Qed.

Section MoreMapperFacts.

Context {FrameMappingFile SyncedLRU : Type}.
Variable zeroFrameMappingFile : FrameMappingFile.
Variable lru_NewSynced :
  Z → (processmanager.FileID → Z) → SyncedLRU + error.

Local Abbreviation MapGet := (processmanager.MapFileIDMapper_Get _ zeroFrameMappingFile).
Local Abbreviation MapSet := (processmanager.MapFileIDMapper_Set _).
Local Abbreviation newMapper := (processmanager.newFileIDMapper _ lru_NewSynced).

(** X15.  The capacity asked of the LRU is the size modulo 2^32: sizes
    that differ by a multiple of 2^32 give the same mapper or the same
    error, so a size of 2^32 asks for what a size of 0 asks for; an error
    of the constructor is returned as it is. *)
Theorem newFileIDMapper_wraps_its_size (size n : Z) :
  newMapper (size + n * 2 ^ 32)%Z = newMapper size ∧
  newMapper (2 ^ 32)%Z = newMapper 0%Z ∧
  (∀ err, lru_NewSynced (size mod 2 ^ 32)%Z processmanager.identityHash = inr err →
          newMapper size = inr err) ∧
  (∀ cache, lru_NewSynced (size mod 2 ^ 32)%Z processmanager.identityHash = inl cache →
            newMapper size = inl (processmanager.mkLruFileIDMapper _ cache)).
Proof.
  unfold processmanager.newFileIDMapper. split; [|split; [|split]].
  - by rewrite Z.mod_add by lia.
  - reflexivity.
  - intros err ->. reflexivity.
  - intros cache ->. reflexivity.
Qed.

(** X16.  What [MapFileIDMapper.Set] stores under a file ID is what [Get]
    returns for it; the answers for the other file IDs do not change; a
    second [Set] of the same file ID replaces the first; a new mapper
    answers every file ID with the zero value. *)
Theorem MapFileIDMapper_set_then_get
        (fm : processmanager.MapFileIDMapper FrameMappingFile)
        (key : processmanager.FileID) (value value' : FrameMappingFile) :
  MapGet (MapSet fm key value) key = (value, true) ∧
  (∀ other, other ≠ key → MapGet (MapSet fm key value) other = MapGet fm other) ∧
  MapSet (MapSet fm key value') key value = MapSet fm key value ∧
  MapGet (processmanager.NewMapFileIDMapper _) key = (zeroFrameMappingFile, true).
Proof.
  unfold processmanager.MapFileIDMapper_Get, processmanager.MapFileIDMapper_Set.
  simpl. split; [|split; [|split]].
  - by rewrite lookup_insert_eq.
  - intros other Hne. by rewrite lookup_insert_ne.
  - by rewrite insert_insert_eq.
  - by rewrite lookup_empty.
Qed.

End MoreMapperFacts.

(** ** The symbol upload *)

Section ReporterFacts.

Context {LString LFileID : Type} `{EqDecision LString}.
Variable NullString : LString.
Variable LString_String : LString → string.
Variable os_Getenv : string → string.
Variable CombinedOutput : list string → string * option error.

Local Abbreviation report :=
  (processmanager.ReportExecutable LString NullString LString_String LFileID
                                   os_Getenv CombinedOutput).

(** The command line of the upload tool for a file. *)
Local Abbreviation commandLine file :=
  ["symbol-upload-tool"; "upload";
   "--coralogix-endpoint"; os_Getenv "SYMBOL_URL";
   "--auth"; os_Getenv "token"; file].

(** X17.  Without a token or without an endpoint in the environment
    [uploadSymbols] returns an error and does nothing else: no command is
    run, nothing is logged.  The token is looked at first. *)
Theorem uploadSymbols_needs_token_and_endpoint (mappingPath : string) :
  os_Getenv "token" = "" ∨ os_Getenv "SYMBOL_URL" = "" →
  processmanager.uploadSymbols LString LFileID os_Getenv CombinedOutput mappingPath =
  (Some (if decide (os_Getenv "token" = "")
         then "token environment variable not set"
         else "SYMBOL_URL environment variable not set"), []).
Proof.
  intros Hunset. unfold processmanager.uploadSymbols.
  destruct (decide (os_Getenv "token" = "")) as [|Htoken]; [reflexivity|].
  destruct Hunset as [|Hurl]; [contradiction|].
  by rewrite decide_True by exact Hurl.
Qed.

(** X18.  With both variables set [uploadSymbols] runs the upload tool
    once, with the endpoint, the token and the file in that order, and
    then logs once: the failure with the tool's error and output when the
    tool reports an error, the success with its output when it does not.
    It returns no error exactly when the tool reports none, and otherwise
    the tool's error behind "symbol upload failed: ". *)
Theorem uploadSymbols_runs_the_tool_once (mappingPath : string) :
  os_Getenv "token" ≠ "" →
  os_Getenv "SYMBOL_URL" ≠ "" →
  processmanager.uploadSymbols LString LFileID os_Getenv CombinedOutput mappingPath =
  (option_map (String.append "symbol upload failed: ")
              (CombinedOutput (commandLine mappingPath)).2,
   [processmanager.Run _ _ (commandLine mappingPath);
    match (CombinedOutput (commandLine mappingPath)).2 with
    | Some err =>
        processmanager.Errorf _ _
          "Failed to upload symbols for %s: %v, output: %s"
          [processmanager.VStr _ _ mappingPath; processmanager.VErr _ _ err;
           processmanager.VStr _ _ (CombinedOutput (commandLine mappingPath)).1]
    | None =>
        processmanager.Infof _ _
          "Successfully uploaded symbols for %s: %s"
          [processmanager.VStr _ _ mappingPath;
           processmanager.VStr _ _ (CombinedOutput (commandLine mappingPath)).1]
    end]).
Proof.
  intros Htoken Hurl. unfold processmanager.uploadSymbols.
  rewrite !decide_False by assumption.
  by destruct (CombinedOutput _) as [output [err|]].
Qed.

Lemma uploadSymbols_runs_command (file : string) :
  os_Getenv "token" ≠ "" → os_Getenv "SYMBOL_URL" ≠ "" →
  processmanager.Run LString LFileID (commandLine file)
  ∈ (processmanager.uploadSymbols LString LFileID os_Getenv CombinedOutput file).2.
Proof.
  intros Htoken Hurl. unfold processmanager.uploadSymbols.
  rewrite !decide_False by assumption.
  destruct (CombinedOutput _) as [output [err|]]; by left.
Qed.

Lemma uploadSymbols_never_extracts (file path : string) :
  processmanager.Extract LString LFileID path
  ∉ (processmanager.uploadSymbols LString LFileID os_Getenv CombinedOutput file).2.
Proof.
  unfold processmanager.uploadSymbols.
  destruct (decide (os_Getenv "token" = "")); [apply not_elem_of_nil|].
  destruct (decide (os_Getenv "SYMBOL_URL" = "")); [apply not_elem_of_nil|].
  destruct (CombinedOutput _) as [output [err|]]; cbn [snd];
    intros H; apply elem_of_cons in H as [H|H]; try discriminate H;
    apply elem_of_cons in H as [H|H]; try discriminate H;
    by apply not_elem_of_nil in H.
Qed.

(** X19.  For an executable without a mapping path the reporter logs its
    call and does nothing else.  With a mapping path it logs its call,
    extracts the file, logs the error of the extraction if there is one,
    and then, whether there was one or not, calls the upload with the name
    the extraction returned and logs the error of the upload if there is
    one: this and nothing more, in this order.  The upload extracts
    nothing, so the file is extracted once; with token and endpoint set
    the upload tool is run on the returned name. *)
Theorem ReportExecutable_uploads_even_after_failed_extraction
        (args : processmanager.ExecutableMetadata LString LFileID) :
  let path := processmanager.Mapping_Path _ _ args in
  let called :=
    processmanager.Infof _ _
      "executableReporterStub.ReportExecutable called: (buildID: %s. fileId %s, name: %s) mapping path: %s, debuglink: %s"
      [processmanager.VStr _ _ (processmanager.MappingFile_GnuBuildID _ _ args);
       processmanager.VFileID _ _ (processmanager.MappingFile_FileID _ _ args);
       processmanager.VLString _ _ (processmanager.MappingFile_FileName _ _ args);
       processmanager.VLString _ _ path;
       processmanager.VStr _ _ (processmanager.DebuglinkFileName _ _ args)] in
  (path = NullString → report args = [called]) ∧
  (path ≠ NullString →
   ∀ file err,
     processmanager.Process_ExtractAsFile _ _ args (LString_String path) = (file, err) →
     let upload :=
       processmanager.uploadSymbols LString LFileID os_Getenv CombinedOutput file in
     report args =
     called :: processmanager.Extract _ _ (LString_String path)
       :: match err with
          | Some e =>
              [processmanager.Errorf _ _ "Failed to extract executable file %s: %v"
                 [processmanager.VLString _ _ path; processmanager.VErr _ _ e]]
          | None => []
          end
       ++ upload.2
       ++ match upload.1 with
          | Some e =>
              [processmanager.Errorf _ _ "Failed to upload symbols for mapping %s: %v"
                 [processmanager.VStr _ _ file; processmanager.VErr _ _ e]]
          | None => []
          end ∧
     (∀ other, processmanager.Extract _ _ other ∉ upload.2) ∧
     (os_Getenv "token" ≠ "" → os_Getenv "SYMBOL_URL" ≠ "" →
      processmanager.Run _ _ (commandLine file) ∈ upload.2)).
Proof.
  intros path called. subst path called.
  unfold processmanager.ReportExecutable. split.
  - intros Hnull. by rewrite decide_True by exact Hnull.
  - intros Hpath file err Hextract. cbv zeta.
    rewrite decide_False by exact Hpath. rewrite Hextract.
    split; [|split].
    + by destruct (processmanager.uploadSymbols LString LFileID os_Getenv
                     CombinedOutput file) as [uerr uploaded].
    + intros other. apply uploadSymbols_never_extracts.
    + apply uploadSymbols_runs_command.
Qed.

End ReporterFacts.

Lemma uploadSymbols_needs_endpoint_witness :
  (Sample.envNoURL "token" = "" ∨ Sample.envNoURL "SYMBOL_URL" = "") ∧
  processmanager.uploadSymbols string Z Sample.envNoURL Sample.toolFails "/tmp/libc.so.6"
  = (Some "SYMBOL_URL environment variable not set", []).
Proof.
  assert (Sample.envNoURL "token" = "" ∨ Sample.envNoURL "SYMBOL_URL" = "") as Hunset
    by (right; reflexivity).
  split; [exact Hunset|].
  exact (uploadSymbols_needs_token_and_endpoint
           (LString := string) (LFileID := Z)
           Sample.envNoURL Sample.toolFails "/tmp/libc.so.6" Hunset).
Defined.

Lemma uploadSymbols_runs_the_tool_witness :
  Sample.env "token" ≠ "" ∧ Sample.env "SYMBOL_URL" ≠ "" ∧
  processmanager.uploadSymbols string Z Sample.env Sample.toolFails "/tmp/libc.so.6"
  = (Some "symbol upload failed: exit status 1",
     [processmanager.Run _ _
        ["symbol-upload-tool"; "upload"; "--coralogix-endpoint";
         "https://symbols.example"; "--auth"; "s3cr3t"; "/tmp/libc.so.6"];
      processmanager.Errorf _ _ "Failed to upload symbols for %s: %v, output: %s"
        [processmanager.VStr _ _ "/tmp/libc.so.6";
         processmanager.VErr _ _ "exit status 1";
         processmanager.VStr _ _ "connection reset"]]).
Proof.
  assert (Sample.env "token" ≠ "") as Htoken by (vm_compute; discriminate).
  assert (Sample.env "SYMBOL_URL" ≠ "") as Hurl by (vm_compute; discriminate).
  split; [exact Htoken | split; [exact Hurl|]].
  rewrite (uploadSymbols_runs_the_tool_once
             (LString := string) (LFileID := Z)
             Sample.env Sample.toolFails "/tmp/libc.so.6" Htoken Hurl).
  reflexivity.
Defined.

(** ** The cgroup pattern *)

Section PatternFacts.

Import processmanager.

Lemma nat_of_ascii_eqb c n :
  (nat_of_ascii c =? n)%nat = true → c = ascii_of_nat n.
Proof.
  intros H%Nat.eqb_eq. rewrite <- H. symmetry. apply ascii_nat_embedding.
Qed.

Lemma hex_run_spec n : ∀ s h r,
  hex_run n s = Some (h, r) →
  s = h ++ r ∧ length h = n ∧ forallb is_hex h = true.
Proof.
  induction n as [|n IH]; intros s h r; simpl.
  - intros [= <- <-]. done.
  - destruct s as [|c s]; [discriminate|].
    destruct (is_hex c) eqn:Hc; [|discriminate].
    destruct (hex_run n s) as [[h' r']|] eqn:Hrun; [|discriminate].
    intros [= <- <-]. destruct (IH s h' r' Hrun) as (-> & <- & Hhex).
    simpl. rewrite Hc, Hhex. done.
Qed.

Lemma hex_run_complete h r :
  forallb is_hex h = true → hex_run (length h) (h ++ r) = Some (h, r).
Proof.
  induction h as [|c h IH]; simpl; [done|].
  intros [Hc Hh]%andb_true_iff. rewrite Hc, IH by exact Hh. done.
Qed.

Lemma strip_literal_spec p : ∀ s r, strip_literal p s = Some r → s = p ++ r.
Proof.
  induction p as [|a p IH]; intros s r; simpl.
  - by intros [= ->].
  - destruct s as [|c s]; [discriminate|].
    destruct (Ascii.eqb a c) eqn:Hac; [|discriminate].
    apply Ascii.eqb_eq in Hac as ->. intros ->%IH. done.
Qed.

Lemma strip_literal_complete p r : strip_literal p (p ++ r) = Some r.
Proof.
  induction p as [|a p IH]; simpl; [done|]. by rewrite Ascii.eqb_refl.
Qed.

Lemma slash_letters_spec s :
  slash_letters s = true →
  ∃ w, s = "/"%char :: w ∧ w ≠ [] ∧ forallb is_lower w = true.
Proof.
  destruct s as [|c [|c' w]]; simpl; try discriminate.
  - rewrite andb_false_r. discriminate.
  - intros [Hc Hw]%andb_true_iff. apply nat_of_ascii_eqb in Hc as ->.
    exists (c' :: w). done.
Qed.

Lemma opt_slash_end_spec s :
  opt_slash_end s = true →
  s = [] ∨ ∃ w, s = "/"%char :: w ∧ w ≠ [] ∧ forallb is_lower w = true.
Proof.
  unfold opt_slash_end. intros [H|H]%orb_true_iff.
  - right. by apply slash_letters_spec.
  - left. by destruct s.
Qed.

Lemma pattern_tail_spec s :
  pattern_tail s = true →
  ∃ dot w, s = dot ++ w ∧
           (dot = [] ∨ dot = String.list_ascii_of_string ".scope") ∧
           (w = [] ∨ ∃ w', w = "/"%char :: w' ∧ w' ≠ [] ∧ forallb is_lower w' = true).
Proof.
  unfold pattern_tail, strip_scope.
  destruct (strip_literal _ s) as [r|] eqn:Hstrip.
  - apply strip_literal_spec in Hstrip as ->.
    intros [H|H]%orb_true_iff.
    + exists (String.list_ascii_of_string ".scope"), r.
      split; [done | split; [by right | by apply opt_slash_end_spec]].
    + apply opt_slash_end_spec in H as [H|(w & H & _)]; discriminate H.
  - intros H. exists [], s. split; [done | split; [by left | by apply opt_slash_end_spec]].
Qed.

Lemma capture_here_spec s h :
  capture_here s = Some h →
  ∃ r, s = h ++ r ∧ length h = 64%nat ∧ forallb is_hex h = true ∧ pattern_tail r = true.
Proof.
  unfold capture_here.
  destruct (hex_run 64 s) as [[h' r]|] eqn:Hrun; [|discriminate].
  destruct (pattern_tail r) eqn:Htail; [|discriminate].
  intros [= <-]. apply hex_run_spec in Hrun as (-> & Hlen & Hhex).
  by exists r.
Qed.

Lemma capture_here_complete h r :
  length h = 64%nat → forallb is_hex h = true → pattern_tail r = true →
  capture_here (h ++ r) = Some h.
Proof.
  intros Hlen Hhex Htail. unfold capture_here.
  rewrite <- Hlen, hex_run_complete by exact Hhex. by rewrite Htail.
Qed.

Lemma lazy_capture_unfold s :
  lazy_capture s =
  match capture_here s with
  | Some h => Some h
  | None =>
      match s with
      | c :: s' => if is_newline c then None else lazy_capture s'
      | [] => None
      end
  end.
Proof. destruct s; reflexivity. Qed.

Lemma pattern_search_unfold s :
  pattern_search s =
  match pattern_here s with
  | Some h => Some h
  | None =>
      match s with
      | _ :: s' => pattern_search s'
      | [] => None
      end
  end.
Proof. destruct s; reflexivity. Qed.

Lemma lazy_capture_spec s : ∀ h,
  lazy_capture s = Some h →
  ∃ c r, s = c ++ h ++ r ∧ forallb (λ ch, negb (is_newline ch)) c = true ∧
         length h = 64%nat ∧ forallb is_hex h = true ∧ pattern_tail r = true.
Proof.
  induction s as [|ch s IH]; intros h; rewrite lazy_capture_unfold.
  - destruct (capture_here []) as [h'|] eqn:Hhere; [|discriminate].
    intros [= <-]. apply capture_here_spec in Hhere as (r & Hs & Hrest).
    by exists [], r.
  - destruct (capture_here (ch :: s)) as [h'|] eqn:Hhere.
    + intros [= <-]. apply capture_here_spec in Hhere as (r & Hs & Hrest).
      by exists [], r.
    + destruct (is_newline ch) eqn:Hnl; [discriminate|].
      intros (c & r & -> & Hc & Hrest)%IH.
      exists (ch :: c), r. simpl. by rewrite Hnl, Hc.
Qed.

Lemma lazy_capture_complete c h r :
  forallb (λ ch, negb (is_newline ch)) c = true →
  length h = 64%nat → forallb is_hex h = true → pattern_tail r = true →
  is_Some (lazy_capture (c ++ h ++ r)).
Proof.
  intros Hc Hlen Hhex Htail. induction c as [|ch c IH]; rewrite lazy_capture_unfold.
  - simpl. by rewrite capture_here_complete.
  - simpl in Hc. apply andb_true_iff in Hc as [Hch Hc].
    change ((ch :: c) ++ h ++ r) with (ch :: (c ++ h ++ r)).
    destruct (capture_here (ch :: c ++ h ++ r)); [done|].
    apply negb_true_iff in Hch. rewrite Hch. by apply IH.
Qed.

Lemma lazy_colon_spec s : ∀ h,
  lazy_colon s = Some h →
  ∃ b c r, s = b ++ ":"%char :: c ++ h ++ r ∧
           forallb (λ ch, negb (is_newline ch)) b = true ∧
           forallb (λ ch, negb (is_newline ch)) c = true ∧
           length h = 64%nat ∧ forallb is_hex h = true ∧ pattern_tail r = true.
Proof.
  induction s as [|ch s IH]; intros h; simpl; [discriminate|].
  destruct (nat_of_ascii ch =? 58)%nat eqn:Hcolon.
  - destruct (lazy_capture s) as [h'|] eqn:Hcap.
    + intros [= <-]. apply nat_of_ascii_eqb in Hcolon as ->.
      apply lazy_capture_spec in Hcap as (c & r & -> & Hrest).
      by exists [], c, r.
    + destruct (is_newline ch) eqn:Hnl; [discriminate|].
      intros (b & c & r & -> & Hb & Hrest)%IH.
      exists (ch :: b), c, r. simpl. by rewrite Hnl, Hb.
  - destruct (is_newline ch) eqn:Hnl; [discriminate|].
    intros (b & c & r & -> & Hb & Hrest)%IH.
    exists (ch :: b), c, r. simpl. by rewrite Hnl, Hb.
Qed.

Lemma lazy_colon_complete b rest :
  forallb (λ ch, negb (is_newline ch)) b = true →
  is_Some (lazy_capture rest) →
  is_Some (lazy_colon (b ++ ":"%char :: rest)).
Proof.
  intros Hb [h Hcap]. induction b as [|ch b IH]; simpl.
  - by rewrite Hcap.
  - simpl in Hb. apply andb_true_iff in Hb as [Hch Hb].
    apply negb_true_iff in Hch. rewrite Hch.
    destruct (nat_of_ascii ch =? 58)%nat; [|by apply IH].
    destruct (lazy_capture (b ++ ":"%char :: rest)); [done | by apply IH].
Qed.

Lemma pattern_here_spec s h :
  pattern_here s = Some h →
  ∃ b c r, s = "0"%char :: ":"%char :: b ++ ":"%char :: c ++ h ++ r ∧
           forallb (λ ch, negb (is_newline ch)) b = true ∧
           forallb (λ ch, negb (is_newline ch)) c = true ∧
           length h = 64%nat ∧ forallb is_hex h = true ∧ pattern_tail r = true.
Proof.
  destruct s as [|c0 [|c1 s]]; simpl; try discriminate.
  destruct (nat_of_ascii c0 =? 48)%nat eqn:H0; [|discriminate].
  destruct (nat_of_ascii c1 =? 58)%nat eqn:H1; [|discriminate]. simpl.
  apply nat_of_ascii_eqb in H0 as ->. apply nat_of_ascii_eqb in H1 as ->.
  intros (b & c & r & -> & Hrest)%lazy_colon_spec. by exists b, c, r.
Qed.

Lemma pattern_search_spec s : ∀ h,
  pattern_search s = Some h →
  ∃ a b c r, s = a ++ "0"%char :: ":"%char :: b ++ ":"%char :: c ++ h ++ r ∧
             forallb (λ ch, negb (is_newline ch)) b = true ∧
             forallb (λ ch, negb (is_newline ch)) c = true ∧
             length h = 64%nat ∧ forallb is_hex h = true ∧ pattern_tail r = true.
Proof.
  induction s as [|ch s IH]; intros h; rewrite pattern_search_unfold.
  - simpl. discriminate.
  - destruct (pattern_here (ch :: s)) as [h'|] eqn:Hhere.
    + intros [= <-]. apply pattern_here_spec in Hhere as (b & c & r & Hs & Hrest).
      exists [], b, c, r. by rewrite Hs.
    + intros (a & b & c & r & -> & Hrest)%IH. by exists (ch :: a), b, c, r.
Qed.

Lemma pattern_search_complete a s :
  is_Some (pattern_here s) → is_Some (pattern_search (a ++ s)).
Proof.
  intros [h Hhere]. induction a as [|ch a IH]; rewrite pattern_search_unfold.
  - change ([] ++ s) with s. rewrite Hhere. by eexists.
  - change ((ch :: a) ++ s) with (ch :: a ++ s).
    destruct (pattern_here (ch :: a ++ s)); [by eexists | exact IH].
Qed.

Lemma slash_suffix_against_prefix (w X P Y : list ascii) :
  rev w ++ "/"%char :: X = P ++ Y →
  forallb is_lower w = true →
  (∀ c, In c P → is_lower c = true) ∨ In "/"%char P.
Proof.
  intros Heq Hw.
  assert (∀ c, In c (rev w) → is_lower c = true) as Hrev.
  { intros c Hc%in_rev. by apply (proj1 (forallb_forall _ _) Hw). }
  apply app_eq_inv in Heq as [(k & Hk & _)|(k & Hk & Hrest)].
  - left. intros c Hc. apply Hrev. rewrite Hk. apply in_or_app. by left.
  - destruct k as [|c0 k].
    + left. intros c Hc. apply Hrev. rewrite app_nil_r in Hk. by rewrite <- Hk.
    + injection Hrest as <- _. right. rewrite Hk. apply in_or_app. right. by left.
Qed.

Lemma prefix_clash (P l X Y : list ascii) (c : ascii) (f : ascii → bool) :
  P ++ X = l ++ Y → (length P ≤ length l)%nat → In c P →
  (∀ a, In a l → f a = true) → f c = false → False.
Proof.
  intros Heq Hlen Hc Hl Hfc.
  assert (In c l) as Hin.
  { apply app_eq_inv in Heq as [(k & Hk & _)|(k & Hk & _)].
    - assert (k = []) as ->.
      { apply (f_equal length) in Hk. rewrite length_app in Hk.
        destruct k; [done | simpl in Hk; lia]. }
      rewrite app_nil_r in Hk. by rewrite <- Hk.
    - rewrite Hk. apply in_or_app. by left. }
  apply Hl in Hin. congruence.
Qed.

Lemma pattern_tail_unique (x h r y id t : list ascii) :
  x ++ h ++ r = y ++ id ++ t →
  length h = 64%nat → length id = 64%nat →
  forallb is_hex h = true → forallb is_hex id = true →
  pattern_tail r = true →
  t = String.list_ascii_of_string ".scope" ∨
  (t = [] ∧ existsb (λ c, negb (is_lower c)) id = true) →
  h = id.
Proof.
  intros Heq Hlenh Hlenid Hhexh Hhexid Htail Ht.
  assert (∀ c, In c (rev h) → is_hex c = true) as Hh
    by (intros c Hc%in_rev; by apply (proj1 (forallb_forall _ _) Hhexh)).
  assert (∀ c, In c (rev id) → is_hex c = true) as Hid
    by (intros c Hc%in_rev; by apply (proj1 (forallb_forall _ _) Hhexid)).
  assert (r = t) as ->.
  { apply (f_equal (@rev ascii)) in Heq.
    rewrite !rev_app_distr in Heq. repeat rewrite <- app_assoc in Heq.
    apply pattern_tail_spec in Htail as (dot & w & -> & Hdot & Hw).
    destruct Hw as [->|(w' & -> & _ & Hlower)].
    - rewrite app_nil_r in *.
      destruct Hdot as [->| ->], Ht as [->|[-> Hmixed]]; try reflexivity; exfalso.
      + (* the line ends in .scope, the capture was taken as its end *)
        symmetry in Heq. simpl in Heq.
        change (?a :: ?b :: ?c :: ?d :: ?e :: ?f :: rev id ++ rev y)
          with ([a; b; c; d; e; f] ++ rev id ++ rev y) in Heq.
        eapply (prefix_clash _ _ _ _ "."%char is_hex Heq); try done.
        * rewrite length_rev, Hlenh. simpl. lia.
        * simpl. tauto.
      + (* the line ends in the id, a .scope was read at its end *)
        simpl in Heq.
        change (?a :: ?b :: ?c :: ?d :: ?e :: ?f :: rev h ++ rev x)
          with ([a; b; c; d; e; f] ++ rev h ++ rev x) in Heq.
        eapply (prefix_clash _ _ _ _ "p"%char is_hex Heq); try done.
        * rewrite length_rev, Hlenid. simpl. lia.
        * simpl. tauto.
    - exfalso. rewrite rev_app_distr in Heq.
      change (rev ("/"%char :: w')) with (rev w' ++ ["/"%char]) in Heq.
      repeat rewrite <- app_assoc in Heq.
      change (["/"%char] ++ ?z) with ("/"%char :: z) in Heq.
      destruct Ht as [->|[-> Hmixed]].
      + apply (slash_suffix_against_prefix
                 w' _ (rev (String.list_ascii_of_string ".scope")) _) in Heq;
          [|exact Hlower].
        destruct Heq as [Hall|Hin].
        * assert (is_lower "."%char = true) as Hbad by (apply Hall; simpl; tauto).
          discriminate Hbad.
        * simpl in Hin.
          repeat (destruct Hin as [Hin|Hin]; [discriminate Hin|]). exact Hin.
      + change (rev [] ++ ?z) with z in Heq.
        apply (slash_suffix_against_prefix w' _ (rev id) _) in Heq; [|exact Hlower].
        destruct Heq as [Hall|Hin].
        * apply existsb_exists in Hmixed as (c & Hc & Hnot).
          rewrite Hall in Hnot; [discriminate Hnot|]. by apply in_rev in Hc.
        * apply Hid in Hin. discriminate Hin. }
  rewrite !app_assoc in Heq. apply app_inv_tail in Heq.
  by apply app_inj_2 in Heq as [_ ?]; [|congruence].
Qed.

Lemma list_ascii_of_string_app (s1 s2 : string) :
  String.list_ascii_of_string (s1 ++ s2) =
  String.list_ascii_of_string s1 ++ String.list_ascii_of_string s2.
Proof. induction s1 as [|c s1 IH]; simpl; [done | by rewrite IH]. Qed.

Lemma string_of_list_ascii_app (l1 l2 : list ascii) :
  String.string_of_list_ascii (l1 ++ l2) =
  (String.string_of_list_ascii l1 ++ String.string_of_list_ascii l2)%string.
Proof. induction l1 as [|c l1 IH]; simpl; [done | by rewrite IH]. Qed.

Lemma string_length_list (s : string) :
  String.length s = length (String.list_ascii_of_string s).
Proof. induction s as [|c s IH]; simpl; [done | by rewrite IH]. Qed.

Lemma submatch_spec line id :
  cgroupv2ContainerIDPattern_submatch line = Some id →
  String.length id = 64%nat ∧
  forallb is_hex (String.list_ascii_of_string id) = true ∧
  ∃ a b c t,
    line = (a ++ "0:" ++ b ++ ":" ++ c ++ id ++ t)%string ∧
    forallb (λ ch, negb (is_newline ch)) (String.list_ascii_of_string b) = true ∧
    forallb (λ ch, negb (is_newline ch)) (String.list_ascii_of_string c) = true ∧
    pattern_tail (String.list_ascii_of_string t) = true.
Proof.
  unfold cgroupv2ContainerIDPattern_submatch.
  destruct (pattern_search _) as [h|] eqn:Hsearch; [|discriminate].
  intros [= <-].
  apply pattern_search_spec in Hsearch as (a & b & c & r & Hline & Hb & Hc & Hlen & Hhex & Htail).
  rewrite string_length_list, String.list_ascii_of_string_of_list_ascii.
  split; [exact Hlen | split; [exact Hhex|]].
  exists (String.string_of_list_ascii a), (String.string_of_list_ascii b),
         (String.string_of_list_ascii c), (String.string_of_list_ascii r).
  rewrite !String.list_ascii_of_string_of_list_ascii.
  split; [|done].
  rewrite <- (String.string_of_list_ascii_of_string line), Hline.
  rewrite string_of_list_ascii_app. simpl.
  rewrite string_of_list_ascii_app. simpl.
  by rewrite !string_of_list_ascii_app.
Qed.

Lemma submatch_skip_line : cgroupv2ContainerIDPattern_submatch "0::/" = None.
Proof. reflexivity. Qed.

Lemma parseContainerID_shape (lines : list string) :
  (parseContainerID lines).1 = ""%string ∨
  String.length (parseContainerID lines).1 = 64%nat ∧
  forallb is_hex (String.list_ascii_of_string (parseContainerID lines).1) = true.
Proof.
  induction lines as [|l lines IH]; simpl; [by left|].
  destruct (decide (l = "0::/"%string)); [exact IH|].
  destruct (cgroupv2ContainerIDPattern_submatch l) as [id|] eqn:Hmatch.
  - right. simpl. apply submatch_spec in Hmatch as (Hlen & Hhex & _). done.
  - destruct (parseContainerID lines) as [id logged]. exact IH.
Qed.

(** X20.  What [parseContainerID] returns is either empty or 64 hexadecimal
    digits taken from one of the lines other than "0::/": in that line the
    digits come after a "0:" and a later ":", and are followed to the end
    of the line by nothing, ".scope", "/" and lower-case letters, or
    ".scope/" and lower-case letters. *)
Theorem parseContainerID_returns_empty_or_a_captured_id (lines : list string) :
  (parseContainerID lines).1 = ""%string ∨
  (String.length (parseContainerID lines).1 = 64%nat ∧
   forallb is_hex (String.list_ascii_of_string (parseContainerID lines).1) = true ∧
   ∃ line a b c t,
     line ∈ lines ∧ line ≠ "0::/"%string ∧
     line = (a ++ "0:" ++ b ++ ":" ++ c ++ (parseContainerID lines).1 ++ t)%string ∧
     pattern_tail (String.list_ascii_of_string t) = true).
Proof.
  induction lines as [|l lines IH]; simpl; [by left|].
  destruct (decide (l = "0::/"%string)) as [->|Hl].
  - destruct IH as [IH|(Hlen & Hhex & line & a & b & c & t & Hin & Hrest)];
      [by left | right].
    split; [exact Hlen | split; [exact Hhex|]].
    exists line, a, b, c, t. split; [by right | exact Hrest].
  - destruct (cgroupv2ContainerIDPattern_submatch l) as [id|] eqn:Hmatch.
    + right. simpl.
      apply submatch_spec in Hmatch as (Hlen & Hhex & a & b & c & t & Hline & _ & _ & Htail).
      split; [exact Hlen | split; [exact Hhex|]].
      exists l, a, b, c, t. split; [by left | done].
    + destruct (parseContainerID lines) as [id logged]. simpl in *.
      destruct IH as [IH|(Hlen & Hhex & line & a & b & c & t & Hin & Hrest)];
        [by left | right].
      split; [exact Hlen | split; [exact Hhex|]].
      exists line, a, b, c, t. split; [by right | exact Hrest].
Qed.

(** X21.  Lines that are "0::/" or that the pattern does not match are
    passed over, one debug line being written for each of the latter; the
    first line the pattern matches decides the result, and nothing after
    it is read.  When no line matches the result is empty. *)
Theorem parseContainerID_takes_the_first_match
        (skipped : list string) (line id : string) (rest : list string) :
  (∀ l, l ∈ skipped → l = "0::/"%string ∨ cgroupv2ContainerIDPattern_submatch l = None) →
  cgroupv2ContainerIDPattern_submatch line = Some id →
  (parseContainerID (skipped ++ line :: rest)).1 = id ∧
  (parseContainerID skipped).1 = ""%string ∧
  (parseContainerID (skipped ++ line :: rest)).2 = (parseContainerID skipped).2 ∧
  length (parseContainerID skipped).2
  = length (filter (λ l, l ≠ "0::/"%string) skipped).
Proof.
  intros Hskip Hmatch.
  assert (line ≠ "0::/"%string) as Hline.
  { intros ->. rewrite submatch_skip_line in Hmatch. discriminate Hmatch. }
  induction skipped as [|l skipped IH]; simpl.
  - rewrite decide_False by exact Hline. rewrite Hmatch. done.
  - destruct IH as (IH1 & IH2 & IH3 & IH4).
    { intros l' Hl'. apply Hskip. by right. }
    destruct (decide (l = "0::/"%string)) as [->|Hl].
    + rewrite filter_cons_False by (intros H; by apply H). repeat split; assumption.
    + rewrite filter_cons_True by exact Hl.
      destruct (Hskip l) as [?|Hnone]; [by left | done |].
      rewrite Hnone.
      destruct (parseContainerID (skipped ++ line :: rest)) as [id1 log1].
      destruct (parseContainerID skipped) as [id2 log2].
      simpl in *. subst. repeat split; try reflexivity. by rewrite IH4.
Qed.

(** X22.  A line that has a "0:", later a ":" and ends in 64 hexadecimal
    digits followed by ".scope" yields exactly those digits, whatever
    stands before them; so does a line that ends in the digits themselves,
    as long as they are not all lower-case letters. *)
Theorem cgroup_line_yields_its_container_id
        (prefix a b id tail : string) (rest : list string) :
  forallb (λ ch, negb (is_newline ch)) (String.list_ascii_of_string a) = true →
  forallb (λ ch, negb (is_newline ch)) (String.list_ascii_of_string b) = true →
  String.length id = 64%nat →
  forallb is_hex (String.list_ascii_of_string id) = true →
  tail = ".scope"%string ∨
  (tail = ""%string ∧
   existsb (λ ch, negb (is_lower ch)) (String.list_ascii_of_string id) = true) →
  parseContainerID ((prefix ++ "0:" ++ a ++ ":" ++ b ++ id ++ tail)%string :: rest)
  = (id, []).
Proof.
  intros Ha Hb Hlen Hhex Htail.
  rewrite string_length_list in Hlen.
  set (line := (prefix ++ "0:" ++ a ++ ":" ++ b ++ id ++ tail)%string).
  assert (String.list_ascii_of_string line =
          String.list_ascii_of_string prefix ++
          "0"%char :: ":"%char :: String.list_ascii_of_string a ++
          ":"%char :: String.list_ascii_of_string b ++
          String.list_ascii_of_string id ++ String.list_ascii_of_string tail) as Hline.
  { unfold line. rewrite list_ascii_of_string_app. simpl.
    rewrite list_ascii_of_string_app. simpl.
    by rewrite !list_ascii_of_string_app. }
  assert (pattern_tail (String.list_ascii_of_string tail) = true) as Hpt
    by (destruct Htail as [->|[-> _]]; reflexivity).
  assert (line ≠ "0::/"%string) as Hne.
  { intros Heq. apply (f_equal String.length) in Heq.
    rewrite string_length_list, Hline in Heq.
    rewrite length_app in Heq. simpl in Heq.
    rewrite length_app in Heq. simpl in Heq.
    rewrite !length_app, Hlen in Heq. lia. }
  simpl. rewrite decide_False by exact Hne.
  unfold cgroupv2ContainerIDPattern_submatch. 
  destruct (pattern_search (String.list_ascii_of_string line)) as [h|] eqn:Hsearch.
  - simpl. f_equal.
    apply pattern_search_spec in Hsearch
      as (a' & b' & c' & r & Hdec & _ & _ & Hlenh & Hhexh & Htailr).
    assert (h = String.list_ascii_of_string id) as ->.
    { apply (pattern_tail_unique
               (a' ++ "0"%char :: ":"%char :: b' ++ ":"%char :: c') h r
               (String.list_ascii_of_string prefix ++
                "0"%char :: ":"%char :: String.list_ascii_of_string a ++
                ":"%char :: String.list_ascii_of_string b)
               (String.list_ascii_of_string id) (String.list_ascii_of_string tail));
        try done.
      - rewrite <- !app_assoc. simpl. rewrite <- !app_assoc. simpl.
        rewrite <- Hdec, Hline. reflexivity.
      - destruct Htail as [->|[-> Hmixed]]; [by left | by right]. }
    apply String.string_of_list_ascii_of_string.
  - exfalso. rewrite Hline in Hsearch.
    pose proof (pattern_search_complete (String.list_ascii_of_string prefix)
                  ("0"%char :: ":"%char :: String.list_ascii_of_string a ++
                   ":"%char :: String.list_ascii_of_string b ++
                   String.list_ascii_of_string id ++ String.list_ascii_of_string tail))
      as Hcomplete.
    rewrite Hsearch in Hcomplete. destruct Hcomplete as [? Habs]; [|discriminate Habs].
    simpl. apply lazy_colon_complete; [exact Ha|].
    by apply lazy_capture_complete.
Qed.

(** X23.  [extractContainerID] never returns an id together with an error:
    when the cgroup file of the process cannot be opened the id is empty
    and the error is the one of the open; otherwise there is no error and
    the id is empty or 64 hexadecimal digits. *)
Theorem extractContainerID_id_or_error
        (os_Open : string → list string + error) (pid : N) :
  let result := extractContainerID os_Open pid in
  (∀ err, result.2 = Some err →
          result.1 = ""%string ∧ os_Open (cgroupPath pid) = inr err) ∧
  (result.2 = None →
   (∃ lines, os_Open (cgroupPath pid) = inl lines) ∧
   (result.1 = ""%string ∨
    String.length result.1 = 64%nat ∧
    forallb is_hex (String.list_ascii_of_string result.1) = true)).
Proof.
  unfold extractContainerID. destruct (os_Open (cgroupPath pid)) as [lines|e]; simpl.
  - split; [discriminate|]. intros _. split; [by exists lines|].
    apply parseContainerID_shape.
  - split; [by intros err [= ->] | discriminate].
Qed.

End PatternFacts.

(** ** The further statements at work on the sample cluster *)

Lemma modified_event_sets_keys_witness :
  NodeName (Pod (mkK8sEntity Sample.web1)) = "node-A" ∧
  Get (applyEvent Sample.matcher "node-A"
         (mkK8sRedisEvent (Some (mkK8sEntity Sample.web1)) None false)
         (mkState ∅ [])) "1111222233334444" = None.
Proof.
  split; [reflexivity|].
  rewrite (modified_event_sets_exactly_the_pod_keys Sample.matcher "node-A"
             (mkK8sEntity Sample.web1) None false (mkState ∅ []) "1111222233334444")
    by reflexivity.
  vm_compute. reflexivity.
Defined.

Lemma stored_record_first_match_witness :
  NodeName (Pod (mkK8sEntity Sample.web1)) = "node-A" ∧
  "abcdef0123456789" ∈ canonicalKeys Sample.matcher (Containers (Pod (mkK8sEntity Sample.web1))) ∧
  ∃ pod i c,
    Get (applyEvent Sample.matcher "node-A"
           (mkK8sRedisEvent (Some (mkK8sEntity Sample.web1)) None false)
           (mkState ∅ [])) "abcdef0123456789" = Some pod ∧
    Name pod = "web-1" ∧ Containers pod = [c] ∧
    Containers Sample.web1 !! i = Some c.
Proof.
  assert ("abcdef0123456789"
          ∈ canonicalKeys Sample.matcher (Containers (Pod (mkK8sEntity Sample.web1))))
    as Hkey by (apply (bool_decide_unpack _); vm_compute; exact I).
  split; [reflexivity | split; [exact Hkey|]].
  destruct (stored_record_keeps_pod_and_first_match Sample.matcher "node-A"
              (mkK8sEntity Sample.web1) None false (mkState ∅ []) "abcdef0123456789"
              eq_refl Hkey)
    as (pod & i & c & Hget & Hname & _ & _ & _ & _ & Hcs & Hi & _).
  exists pod, i, c. repeat split; assumption.
Defined.

Lemma deleted_event_removes_keys_witness :
  NodeName (Pod (mkK8sEntity Sample.web1)) = "node-A" ∧
  Get (applyEvent Sample.matcher "node-A"
         (mkK8sRedisEvent None (Some (mkK8sEntity Sample.web1)) false)
         (applyEvent Sample.matcher "node-A"
            (mkK8sRedisEvent (Some (mkK8sEntity Sample.api1)) None false)
            (mkState ∅ []))) "1111222233334444"
  = Some (mkK8sPod "api-1" "default" "node-A"
                   [mkK8sContainer "containerd://1111222233334444" "api"]
                   ["10.0.0.9"] (mkK8sOwner "api" "Deployment")).
Proof.
  split; [reflexivity|].
  rewrite (deleted_event_removes_exactly_the_pod_keys Sample.matcher "node-A"
             (mkK8sEntity Sample.web1) false _ "1111222233334444") by reflexivity.
  vm_compute. reflexivity.
Defined.

Lemma deleted_event_on_absent_keys_witness :
  (∀ key, key ∈ canonicalKeys Sample.matcher (Containers (Pod (mkK8sEntity Sample.web1))) →
          Get (mkState ∅ []) key = None) ∧
  cache (applyEvent Sample.matcher "node-A"
           (mkK8sRedisEvent None (Some (mkK8sEntity Sample.web1)) false)
           (mkState ∅ [])) = ∅.
Proof.
  assert (∀ key,
             key ∈ canonicalKeys Sample.matcher (Containers (Pod (mkK8sEntity Sample.web1))) →
             Get (mkState ∅ []) key = None) as Habsent by (intros key _; reflexivity).
  split; [exact Habsent|].
  exact (proj1 (deleted_event_on_absent_keys_is_noop Sample.matcher "node-A"
                  (mkK8sEntity Sample.web1) false (mkState ∅ []) Habsent)).
Defined.

Lemma modified_events_commute_witness :
  (∀ key, key ∈ canonicalKeys Sample.matcher (Containers (Pod (mkK8sEntity Sample.web1))) →
          key ∉ canonicalKeys Sample.matcher (Containers (Pod (mkK8sEntity Sample.api1)))) ∧
  cache (applyEvent Sample.matcher "node-A"
           (mkK8sRedisEvent (Some (mkK8sEntity Sample.api1)) None false)
           (applyEvent Sample.matcher "node-A"
              (mkK8sRedisEvent (Some (mkK8sEntity Sample.web1)) None false)
              (mkState ∅ []))) =
  cache (applyEvent Sample.matcher "node-A"
           (mkK8sRedisEvent (Some (mkK8sEntity Sample.web1)) None false)
           (applyEvent Sample.matcher "node-A"
              (mkK8sRedisEvent (Some (mkK8sEntity Sample.api1)) None false)
              (mkState ∅ []))).
Proof.
  assert (∀ key,
             key ∈ canonicalKeys Sample.matcher (Containers (Pod (mkK8sEntity Sample.web1))) →
             key ∉ canonicalKeys Sample.matcher (Containers (Pod (mkK8sEntity Sample.api1))))
    as Hdisj.
  { apply (proj1 (Forall_forall _ _)). apply (bool_decide_unpack _); vm_compute; exact I. }
  split; [exact Hdisj|].
  exact (modified_events_of_disjoint_pods_commute Sample.matcher "node-A"
           (mkK8sEntity Sample.web1) (mkK8sEntity Sample.api1) None None false false
           (mkState ∅ []) Hdisj).
Defined.

Lemma later_modified_event_witness :
  NodeName (Pod (mkK8sEntity Sample.web1)) = "node-A" ∧
  cache (applyEvent Sample.matcher "node-A"
           (mkK8sRedisEvent (Some (mkK8sEntity Sample.web1)) None false)
           (applyEvent Sample.matcher "node-A"
              (mkK8sRedisEvent (Some (mkK8sEntity Sample.web1)) None true)
              (mkState ∅ []))) =
  cache (applyEvent Sample.matcher "node-A"
           (mkK8sRedisEvent (Some (mkK8sEntity Sample.web1)) None false)
           (mkState ∅ [])).
Proof.
  split; [reflexivity|].
  exact (later_modified_event_overwrites Sample.matcher "node-A"
           (mkK8sEntity Sample.web1) (mkK8sEntity Sample.web1) None None true false
           (mkState ∅ []) eq_refl (fun key H => H)).
Defined.

Lemma bootstrap_indexes_local_containers_witness :
  Sample.httpGet (K8SWatcherHost Sample.cfg ++ "/api/v1/k8s/pods?node=" ++ "node-A")%string
  = inl "state-1" ∧
  Sample.decodeState "state-1"
  = inl (mkK8sStateResponse [mkK8sEntity Sample.web1; mkK8sEntity Sample.db1]) ∧
  ∃ st, K8sWatcher Sample.matcher Sample.httpGet Sample.decodeState "node-A" Sample.cfg
        = (Returned (cache st), st) ∧
        fetches (trace st) = 1%nat.
Proof.
  assert (Sample.httpGet
            (K8SWatcherHost Sample.cfg ++ "/api/v1/k8s/pods?node=" ++ "node-A")%string
          = inl "state-1") as Hget by (vm_compute; reflexivity).
  assert (Sample.decodeState "state-1"
          = inl (mkK8sStateResponse [mkK8sEntity Sample.web1; mkK8sEntity Sample.db1]))
    as Hdec by (vm_compute; reflexivity).
  split; [exact Hget | split; [exact Hdec|]].
  destruct (bootstrap_indexes_exactly_the_local_containers
              Sample.matcher Sample.httpGet Sample.decodeState "node-A" Sample.cfg
              "state-1" _ Hget Hdec) as (st & Hrun & _ & Hone & _).
  exists st. split; assumption.
Defined.

Lemma bootstrap_keeps_last_pod_witness :
  NodeName (Pod (mkK8sEntity Sample.web1)) = "node-A" ∧
  Get (foldl (bootstrapEntity Sample.matcher "node-A") (mkState ∅ [])
             ([mkK8sEntity Sample.web1] ++ mkK8sEntity Sample.web1
                :: [mkK8sEntity Sample.db1])) "abcdef0123456789"
  = Some (filteredPod Sample.matcher Sample.web1 "abcdef0123456789").
Proof.
  split; [reflexivity|].
  apply (bootstrap_keeps_the_last_pod_of_a_key Sample.matcher "node-A"
           [mkK8sEntity Sample.web1] (mkK8sEntity Sample.web1) [mkK8sEntity Sample.db1]
           (mkState ∅ []) "abcdef0123456789").
  - reflexivity.
  - apply (bool_decide_unpack _); vm_compute; exact I.
  - intros later Hin Hnode. apply list_elem_of_singleton in Hin. subst later.
    vm_compute in Hnode. discriminate Hnode.
Defined.

Lemma event_logs_one_line_witness :
  NodeName (Pod (mkK8sEntity Sample.web1)) = "node-A" ∧
  length (trace (applyEvent Sample.matcher "node-A"
                   (mkK8sRedisEvent (Some (mkK8sEntity Sample.web1)) None false)
                   (mkState ∅ []))) = 3%nat.
Proof.
  split; [reflexivity|].
  rewrite (proj1 (event_logs_one_line_per_container Sample.matcher "node-A"
                    (mkK8sEntity Sample.web1) false (mkState ∅ []) eq_refl)).
  reflexivity.
Defined.

Lemma ReportExecutable_failed_extraction_witness :
  processmanager.Mapping_Path _ _ Sample.unreadable ≠ "" ∧
  processmanager.ReportExecutable string "" id Z Sample.env Sample.toolFails
    Sample.unreadable
  = [processmanager.Infof _ _
       "executableReporterStub.ReportExecutable called: (buildID: %s. fileId %s, name: %s) mapping path: %s, debuglink: %s"
       [processmanager.VStr _ _ "4fe2"; processmanager.VFileID _ _ 77%Z;
        processmanager.VLString _ _ "libc.so.6";
        processmanager.VLString _ _ "/usr/lib/libc.so.6";
        processmanager.VStr _ _ ""];
     processmanager.Extract _ _ "/usr/lib/libc.so.6";
     processmanager.Errorf _ _ "Failed to extract executable file %s: %v"
       [processmanager.VLString _ _ "/usr/lib/libc.so.6";
        processmanager.VErr _ _ "no such file or directory"];
     processmanager.Run _ _
       ["symbol-upload-tool"; "upload"; "--coralogix-endpoint";
        "https://symbols.example"; "--auth"; "s3cr3t"; ""];
     processmanager.Errorf _ _ "Failed to upload symbols for %s: %v, output: %s"
       [processmanager.VStr _ _ ""; processmanager.VErr _ _ "exit status 1";
        processmanager.VStr _ _ "connection reset"];
     processmanager.Errorf _ _ "Failed to upload symbols for mapping %s: %v"
       [processmanager.VStr _ _ "";
        processmanager.VErr _ _ "symbol upload failed: exit status 1"]].
Proof.
  assert (processmanager.Mapping_Path _ _ Sample.unreadable ≠ "") as Hpath
    by (vm_compute; discriminate).
  split; [exact Hpath|].
  rewrite (proj1 (proj2 (ReportExecutable_uploads_even_after_failed_extraction
                           "" id Sample.env Sample.toolFails Sample.unreadable)
                        Hpath "" (Some "no such file or directory") eq_refl)).
  reflexivity.
Defined.

Lemma parseContainerID_first_match_witness :
  (∀ l, l ∈ ["12:memory:/user.slice"; "0::/"] →
        l = "0::/" ∨ processmanager.cgroupv2ContainerIDPattern_submatch l = None) ∧
  processmanager.cgroupv2ContainerIDPattern_submatch Sample.cgroupLine
  = Some Sample.containerID ∧
  (processmanager.parseContainerID
     (["12:memory:/user.slice"; "0::/"] ++ Sample.cgroupLine :: ["0::/other"])).1
  = Sample.containerID.
Proof.
  assert (∀ l, l ∈ ["12:memory:/user.slice"; "0::/"] →
               l = "0::/" ∨ processmanager.cgroupv2ContainerIDPattern_submatch l = None)
    as Hskip.
  { apply (proj1 (Forall_forall _ _)).
    apply Forall_cons. split; [right; vm_compute; reflexivity|].
    apply Forall_cons. split; [left; reflexivity | constructor]. }
  assert (processmanager.cgroupv2ContainerIDPattern_submatch Sample.cgroupLine
          = Some Sample.containerID) as Hmatch by (vm_compute; reflexivity).
  split; [exact Hskip | split; [exact Hmatch|]].
  exact (proj1 (parseContainerID_takes_the_first_match
                  ["12:memory:/user.slice"; "0::/"] Sample.cgroupLine Sample.containerID
                  ["0::/other"] Hskip Hmatch)).
Defined.

Lemma cgroup_line_yields_id_witness :
  String.length Sample.containerID = 64%nat ∧
  processmanager.parseContainerID
    [("" ++ "0:" ++ "" ++ ":" ++
      "/kubepods.slice/kubepods-besteffort.slice/cri-containerd-" ++
      Sample.containerID ++ ".scope")%string]
  = (Sample.containerID, []).
Proof.
  split; [reflexivity|].
  apply (cgroup_line_yields_its_container_id
           "" "" "/kubepods.slice/kubepods-besteffort.slice/cri-containerd-"
           Sample.containerID ".scope" []).
  - reflexivity.
  - vm_compute; reflexivity.
  - reflexivity.
  - vm_compute; reflexivity.
  - left; reflexivity.
Defined.

(** The wrap of the size at work: a mapper of size 2^32 is a mapper of
    capacity 0, which the constructor refuses. *)
Example size_two_to_the_32_is_capacity_zero :
  processmanager.newFileIDMapper (list (Z * Z)) Sample.lruNew (2 ^ 32)%Z
  = inr "capacity must be positive".
Proof. reflexivity. Qed.
